(** * QuantPDE: the Axis class and the Bermudan put driver

    A shallow embedding of [src/Axis.hpp] (class [QuantPDE::Axis] and its
    stream insertion operator) and of the option handling and event
    registration of [test/bermudan_put.cpp], followed by the properties of
    both that the specification states.

    - [Real] is a typedef of the library that these two files do not
      contain.  The code is embedded over an arbitrary [Real] with the
      operations it applies to it (class [RealOps]).  [binary64] is the
      instance for IEEE 754 double precision, the type of the literals
      ([2.], [100.], [0.04]) and of [atof]'s result in the source, with
      [float_value] for the number that a double is; [rational] is the
      instance for exact arithmetic.
    - An [Axis] owns a heap array ([Real *n]) of [length] cells.  The heap is
      a finite map from locations to blocks and every member function is a
      computation over it, so that copies, assignment and [refine] are
      modelled with the allocation and the aliasing they really have.
    - [main] is embedded from the options loop to the registration of the
      exercise events; its input is what [getopt] returns call after call,
      with the diagnostic [getopt] writes when it rejects an option, and
      [atoi] and [atof] are parameters. *)

From Stdlib Require Import ZArith QArith Qcanon Floats Ascii String.
From stdpp Require Import numbers gmap list strings.

Set Default Proof Using "Type".

(* ================================================================== *)
(** * Part I: definitions                                              *)
(* ================================================================== *)

(** ** The arithmetic of [Real] *)

(** The operations the two source files apply to values of type [Real]:
    decimal literals, [+], [*], [/], the comparisons [<] and [<=], and the
    implicit conversion from [int] and [unsigned]. *)
Class RealOps (Real : Type) := {
  (** [Rdec m e] is the literal with decimal digits [m] and decimal
      exponent [e]: [100.] is [Rdec 100 0], [0.04] is [Rdec 4 (-2)]. *)
  Rdec : Z → Z → Real;
  Radd : Real → Real → Real;
  Rmul : Real → Real → Real;
  Rdiv : Real → Real → Real;
  Rlt : Real → Real → bool;
  Rle : Real → Real → bool;
  Rof_int : Z → Real
}.

(** ** The heap *)

Module Mem.

Abbreviation loc := positive.

(** A pointer [Real *]. *)
Inductive ptr := NULL | Ptr (l : loc).

(** How a computation ends. *)
Inductive outcome (S A : Type) :=
  | Done (a : A) (s : S)   (* normal completion, with the final heap *)
  | AssertFailed           (* [assert] aborted the program *)
  | BadAlloc               (* [new Real[k]] threw *)
  | Undefined              (* access outside an array, to a cell never
                              written, or through a dead or null pointer *)
  | OutOfFuel.             (* a loop of the model ran out of fuel *)
Arguments Done {S A} a s.
Arguments AssertFailed {S A}.
Arguments BadAlloc {S A}.
Arguments Undefined {S A}.
Arguments OutOfFuel {S A}.

(** An array made by [new Real[k]]: [k] cells, [None] until written.  The
    heap maps the locations of the live arrays to their cells. *)
Abbreviation block Real := (list (option Real)).
Abbreviation heap Real := (gmap loc (list (option Real))).

(** Computations over the heap. *)
Definition M (Real A : Type) := heap Real → outcome (heap Real) A.

Section Heap.
Context {Real : Type}.

Definition ret {A} (a : A) : M Real A := λ h, Done a h.

Definition bind {A B} (m : M Real A) (k : A → M Real B) : M Real B :=
  λ h, match m h with
       | Done a h' => k a h'
       | AssertFailed => AssertFailed
       | BadAlloc => BadAlloc
       | Undefined => Undefined
       | OutOfFuel => OutOfFuel
       end.

Definition abort {A} : M Real A := λ _, AssertFailed.
Definition out_of_fuel {A} : M Real A := λ _, OutOfFuel.

(** [new Real[k]].  The element count is computed in the index type; a count
    that wrapped below zero cannot be allocated and [new] throws.  The new
    array is at a location no live array has. *)
Definition new_array (k : Z) : M Real loc :=
  λ h, if (k <? 0)%Z then BadAlloc
       else let l := fresh (dom h) in
            Done l (<[l := replicate (Z.to_nat k) None]> h).

(** [delete [] p]: nothing for the null pointer. *)
Definition delete_array (p : ptr) : M Real unit :=
  λ h, match p with
       | NULL => Done tt h
       | Ptr l => match h !! l with
                  | Some _ => Done tt (delete l h)
                  | None => Undefined
                  end
       end.

(** The read [p[i]]. *)
Definition load (p : ptr) (i : nat) : M Real Real :=
  λ h, match p with
       | NULL => Undefined
       | Ptr l => match h !! l with
                  | Some b => match b !! i with
                              | Some (Some x) => Done x h
                              | _ => Undefined
                              end
                  | None => Undefined
                  end
       end.

(** The write [p[i] = x]. *)
Definition store (p : ptr) (i : nat) (x : Real) : M Real unit :=
  λ h, match p with
       | NULL => Undefined
       | Ptr l => match h !! l with
                  | Some b => if decide (i < length b)
                              then Done tt (<[l := <[i := Some x]> b]> h)
                              else Undefined
                  | None => Undefined
                  end
       end.

(** [std::memcpy(dst, src, k * sizeof(Real))] between two arrays of the
    heap: the first [k] cells of [src], written or not, replace the first
    [k] cells of [dst]. *)
Definition memcpy (dst src : ptr) (k : nat) : M Real unit :=
  λ h, match dst, src with
       | Ptr d, Ptr s =>
           match h !! d, h !! s with
           | Some bd, Some bs =>
               if decide (k ≤ length bd ∧ k ≤ length bs)
               then Done tt (<[d := take k bs ++ drop k bd]> h)
               else Undefined
           | _, _ => Undefined
           end
       | _, _ => Undefined
       end.

(** [std::memcpy(dst, data, k * sizeof(Real))] from a buffer that is not
    one of the heap's arrays (the storage of a [Vector]), given by its
    contents. *)
Definition memcpy_from (dst : ptr) (data : list Real) (k : nat) : M Real unit :=
  λ h, match dst with
       | Ptr d =>
           match h !! d with
           | Some bd =>
               if decide (k ≤ length bd ∧ k ≤ length data)
               then Done tt (<[d := (Some <$> take k data) ++ drop k bd]> h)
               else Undefined
           | None => Undefined
           end
       | NULL => Undefined
       end.

End Heap.

End Mem.

Import Mem.

Declare Scope mem_scope.
Delimit Scope mem_scope with mem.
Notation "x ←' m ; k" := (Mem.bind m (λ x, k))
  (at level 20, m at level 100, k at level 200, only parsing) : mem_scope.
Notation "m ;;' k" := (Mem.bind m (λ _, k))
  (at level 100, k at level 200, right associativity, only parsing) : mem_scope.
Open Scope mem_scope.

(** The build: [assert] and the code under [#ifndef NDEBUG] exist in a debug
    build only. *)
Inductive build := Debug | Release.

(** [assert(c)]: in a release build the condition is not even evaluated. *)
Definition cxx_assert {Real A} (b : build) (c : M Real bool) (k : M Real A) : M Real A :=
  match b with
  | Release => k
  | Debug => ok ←' c; if (ok : bool) then k else abort
  end.

(** ** class Axis *)

Module Axis.
Section Axis.
Context `{RealOps Real}.

(** The two data members, [Real *n] and [Index length]. *)
Record t := Make { n : ptr; length : nat }.

(** The private constructor [Axis(Index length)]: an array of [length]
    cells, none of them written. *)
Definition with_length (length : Z) : M Real t :=
  p ←' new_array length;
  ret (Make (Ptr p) (Z.to_nat length)).

(** The loop [for(Real tick : list) *(p++) = tick;], with [p = n + i]. *)
Fixpoint fill (p : ptr) (i : nat) (list : list Real) : M Real unit :=
  match list with
  | [] => ret tt
  | tick :: rest => store p i tick ;;' fill p (S i) rest
  end.

(** The loop [while(p < n + length - 1) { assert( *p < *(p+1) ); p++; }] of
    the debug build, with [p = n + i]. *)
Fixpoint check_increasing (fuel : nat) (p : ptr) (length i : nat) : M Real unit :=
  match fuel with
  | O => out_of_fuel
  | S fuel =>
      if (Z.of_nat i <? Z.of_nat length - 1)%Z
      then x ←' load p i;
           y ←' load p (i + 1);
           if Rlt x y then check_increasing fuel p length (i + 1) else abort
      else ret tt
  end.

(** [Axis(std::initializer_list<Real> list)]. *)
Definition from_list (b : build) (list : list Real) : M Real t :=
  let length := List.length list in
  cxx_assert b (ret (0 <? length))
    (p ←' new_array (Z.of_nat length);
     fill (Ptr p) 0 list ;;'
     match b with
     | Debug => check_increasing (S length) (Ptr p) length 0
     | Release => ret tt
     end ;;'
     ret (Make (Ptr p) length)).

(** [Axis(const Vector &vector)]; the vector is given by its elements. *)
Definition from_vector (vector : list Real) : M Real t :=
  let length := List.length vector in
  p ←' new_array (Z.of_nat length);
  memcpy_from (Ptr p) vector length ;;'
  ret (Make (Ptr p) length).

(** The copy constructor [Axis(const Axis &that)]. *)
Definition copy (that : t) : M Real t :=
  p ←' new_array (Z.of_nat (length that));
  memcpy (Ptr p) (n that) (length that) ;;'
  ret (Make (Ptr p) (length that)).

(** The move constructor [Axis(Axis &&that)]: the new object, and what is
    left of [that]. *)
Definition move (that : t) : M Real (t * t) :=
  ret (Make (n that) (length that), Make NULL (length that)).

(** The destructor. *)
Definition destroy (this : t) : M Real unit := delete_array (n this).

(** The body of [Axis &operator=(Axis that)], on the parameter object
    [that]; the parameter is destroyed when the call returns.  The result
    is the assigned object. *)
Definition assign_from (this that : t) : M Real t :=
  let this' := Make (n that) (length that) in   (* length = that.length; swap *)
  let that' := Make (n this) (length that) in
  destroy that' ;;'
  ret this'.

(** [this = a] for an lvalue [a]: the parameter is copy-constructed. *)
Definition assign (this a : t) : M Real t :=
  that ←' copy a;
  assign_from this that.

(** [this = std::move(a)], or [this = f()] for a temporary, for an object
    [a] other than [this]: the parameter is move-constructed.  The result
    is the assigned object with what is left of [a]. *)
Definition assign_move (this a : t) : M Real (t * t) :=
  moved ←' move a;
  this' ←' assign_from this moved.1;
  ret (this', moved.2).

(** [operator()(Index i)], read through either overload. *)
Definition get (this : t) (i : nat) : M Real Real := load (n this) i.

(** [axis(i) = x], a write through the reference the non-const
    [operator()] returns. *)
Definition set (this : t) (i : nat) (x : Real) : M Real unit := store (n this) i x.

Definition ticks (this : t) : ptr := n this.

Definition size (this : t) : nat := length this.

(** The loop of [refine]:
    [while(i < length) { refined(j++) = (n[i-1] + n[i])/2.; refined(j++) = n[i++]; }] *)
Fixpoint refine_loop (fuel : nat) (this refined : t) (i j : nat) : M Real unit :=
  match fuel with
  | O => out_of_fuel
  | S fuel =>
      if decide (i < length this)
      then a ←' load (n this) (i - 1);
           b ←' load (n this) i;
           set refined j (Rdiv (Radd a b) (Rdec 2 0)) ;;'
           c ←' load (n this) i;
           set refined (j + 1) c ;;'
           refine_loop fuel this refined (i + 1) (j + 2)
      else ret tt
  end.

(** [Axis refine() const].  The count [length * 2 - 1] is negative (or
    wraps) for an axis of no ticks.  [return refined;] move-constructs the
    result and destroys the local object (when the compiler elides the
    move, the local object is the result: the same members, the same
    heap). *)
Definition refine (this : t) : M Real t :=
  refined ←' with_length (Z.of_nat (length this) * 2 - 1);
  a ←' load (n this) 0;
  set refined 0 a ;;'
  refine_loop (length this) this refined 1 1 ;;'
  moved ←' move refined;
  destroy moved.2 ;;'
  ret moved.1.

End Axis.
End Axis.

(** ** Output streams *)

(** What is inserted into a [std::ostream], in order: characters, string
    literals, values of type [Real] (whose digits the stream's formatting
    state decides) and [std::endl]. *)
Inductive item (Real : Type) :=
  | Char (c : ascii)
  | Text (s : string)
  | Number (x : Real)
  | Endl.
Arguments Char {Real} c.
Arguments Text {Real} s.
Arguments Number {Real} x.
Arguments Endl {Real}.

Definition ostream (Real : Type) := list (item Real).

Section Print.
Context `{RealOps Real}.

(** The loop [for(Index i = 1; i < axis.size(); i++) os << ' ' << axis(i);]. *)
Fixpoint print_loop (fuel : nat) (os : ostream Real) (axis : Axis.t) (i : nat)
  : M Real (ostream Real) :=
  match fuel with
  | O => out_of_fuel
  | S fuel =>
      if decide (i < Axis.size axis)
      then x ←' Axis.get axis i;
           print_loop fuel (os ++ [Char " "; Number x]) axis (i + 1)
      else ret os
  end.

(** [std::ostream &operator<<(std::ostream &os, const Axis &axis)]: the
    stream after the insertion. *)
Definition print (os : ostream Real) (axis : Axis.t) : M Real (ostream Real) :=
  x ←' Axis.get axis 0;
  os ←' print_loop (S (Axis.size axis)) (os ++ [Char "("; Number x]) axis 1;
  ret (os ++ [Char ")"]).

End Print.

(** ** test/bermudan_put.cpp *)

Module Main.
Section Main.
Context `{RealOps Real}.

(** [atoi] and [atof] of the C library. *)
Variable atoi : string → Z.
Variable atof : string → Real.

(** The local variables of [main] that the options set. *)
Record params := Params {
  K : Real; T : Real; r : Real; v : Real; q : Real;
  R : Z; e : Z; N : Z
}.

Definition defaults : params :=
  {| K := Rdec 100 0; T := Rdec 1 0; r := Rdec 4 (-2); v := Rdec 2 (-1);
     q := Rdec 0 0; R := 0; e := 10; N := 25 |}.

Definition set_K (x : Real) (p : params) : params :=
  {| K := x; T := T p; r := r p; v := v p; q := q p; R := R p; e := e p; N := N p |}.
Definition set_T (x : Real) (p : params) : params :=
  {| K := K p; T := x; r := r p; v := v p; q := q p; R := R p; e := e p; N := N p |}.
Definition set_r (x : Real) (p : params) : params :=
  {| K := K p; T := T p; r := x; v := v p; q := q p; R := R p; e := e p; N := N p |}.
Definition set_v (x : Real) (p : params) : params :=
  {| K := K p; T := T p; r := r p; v := x; q := q p; R := R p; e := e p; N := N p |}.
Definition set_q (x : Real) (p : params) : params :=
  {| K := K p; T := T p; r := r p; v := v p; q := x; R := R p; e := e p; N := N p |}.
Definition set_R (x : Z) (p : params) : params :=
  {| K := K p; T := T p; r := r p; v := v p; q := q p; R := x; e := e p; N := N p |}.
Definition set_e (x : Z) (p : params) : params :=
  {| K := K p; T := T p; r := r p; v := v p; q := q p; R := R p; e := x; N := N p |}.
Definition set_N (x : Z) (p : params) : params :=
  {| K := K p; T := T p; r := r p; v := v p; q := q p; R := R p; e := e p; N := x |}.

(** [void help()]: what it inserts into [cerr]. *)
Definition help : ostream Real :=
  [ Text "unequal_borrowing_lending_rates [OPTIONS]"; Endl; Endl;
    Text "Prices a long/short position straddle under the Black-Scholes model assuming"; Endl;
    Text "unequal borrowing/lending rates."; Endl;
    Endl;
    Text "-d REAL"; Endl;
    Endl;
    Text "    sets the dividend rate (default is 0.)"; Endl;
    Endl;
    Text "-e NONNEGATIVE_INTEGER"; Endl;
    Endl;
    Text "    sets the number of premature exercises, spread evenly throughout the"; Endl;
    Text "    interval (default is 10)"; Endl;
    Endl;
    Text "-K REAL"; Endl;
    Endl;
    Text "    sets the strike price (default is 100.)"; Endl;
    Endl;
    Text "-N POSITIVE_INTEGER"; Endl;
    Endl;
    Text "    sets the number of steps to take in time (default is 100)"; Endl;
    Endl;
    Text "-r REAL"; Endl;
    Endl;
    Text "    sets the interest rate (default is 0.04)"; Endl;
    Endl;
    Text "-R NONNEGATIVE_INTEGER"; Endl;
    Endl;
    Text "    controls the coarseness of the grid, with 0 being coarsest (default is 0)"; Endl;
    Endl;
    Text "-T POSITIVE_REAL"; Endl;
    Endl;
    Text "    sets the expiry time (default is 1.)"; Endl;
    Endl;
    Text "-v REAL"; Endl;
    Endl;
    Text "    sets the volatility (default is 0.2)"; Endl; Endl ].

(** How one pass through the [switch] ends: at the [break], with the
    variables as they are then, or at a [return]. *)
Inductive control :=
  | Break (p : params)
  | Return (status : Z).

(** The [switch(c)] of the options loop, for the option character [c] that
    [getopt] returned and the [optarg] it set: what is inserted into [cerr],
    and how the pass ends.  A character with no [case] falls out of the
    switch. *)
Definition option_switch (c : ascii) (optarg : string) (p : params)
  : ostream Real * control :=
  match c with
  | "d"%char => ([], Break (set_q (atof optarg) p))
  | "e"%char =>
      let e := atoi optarg in
      if (e <? 0)%Z
      then ([Text "error: the number of premature exercises must be nonnegative"; Endl],
            Return 1)
      else ([], Break (set_e e p))
  | "h"%char => (help, Return 0)
  | "K"%char => ([], Break (set_K (atof optarg) p))
  | "N"%char =>
      let N := atoi optarg in
      if (N <=? 0)%Z
      then ([Text "error: the number of steps must be positive"; Endl], Return 1)
      else ([], Break (set_N N p))
  | "r"%char => ([], Break (set_r (atof optarg) p))
  | "R"%char =>
      let R := atoi optarg in
      if (R <? 0)%Z
      then ([Text "error: the maximum level of refinement must be nonnegative"; Endl],
            Return 1)
      else ([], Break (set_R R p))
  | "T"%char =>
      let T := atof optarg in
      if Rle T (Rdec 0 0)
      then ([Text "error: expiry time must be positive"; Endl], Return 1)
      else ([], Break (set_T T p))
  | "v"%char => ([], Break (set_v (atof optarg) p))
  | ":"%char | "?"%char => (Endl :: help, Return 1)
  | _ => ([], Break p)
  end.

(** What the call of [getopt] wrote to the standard error before it
    returned [c].  [main] leaves [opterr] as it is and its option string
    does not start with a colon, so [getopt] writes a diagnostic of its own
    when it rejects an option (an unknown one, or one whose argument is
    missing) and returns ['?']; it sets no [optarg] then, and the second
    component of such a return is that diagnostic.  For every other return
    it writes nothing. *)
Definition getopt_wrote (c : ascii) (diagnostic : string) : ostream Real :=
  match c with
  | "?"%char => [Text diagnostic]
  | _ => []
  end.

(** The loop [while((c = getopt(argc, argv, ...)) != -1) { switch(c) ... }].
    [opts] is what the successive calls of [getopt] return before [-1]: the
    option character, with the [optarg] it set (or, for ['?'], the
    diagnostic it wrote).  [cerr] is the standard error of the process,
    which [getopt] and [std::cerr] both write to, unbuffered. *)
Fixpoint options_loop (opts : list (ascii * string)) (p : params) (cerr : ostream Real)
  : ostream Real * control :=
  match opts with
  | [] => (cerr, Break p)
  | (c, optarg) :: opts =>
      match option_switch c optarg p with
      | (out, Break p) => options_loop opts p (cerr ++ getopt_wrote c optarg ++ out)
      | (out, Return status) => (cerr ++ getopt_wrote c optarg ++ out, Return status)
      end
  end.

(** The ticks of the [Axis] of the spatial grid. *)
Definition grid_ticks : list Real :=
  (λ z, Rdec z 0) <$>
  [ 0; 10; 20; 30; 40; 50; 60; 70;
    75; 80;
    84; 88; 92;
    94; 96; 98; 100; 102; 104; 106; 108; 110;
    114; 118;
    123;
    130; 140; 150;
    175;
    225;
    300;
    750;
    2000;
    10000 ]%Z.

(** The conversion of an [int] to [unsigned], of 32 bits. *)
Definition to_unsigned (z : Z) : Z := (z mod 2 ^ 32)%Z.

(** The loop [for(unsigned m = 0; m < e; m++) stepper.add(T / e * m, ...);].
    The stepper is represented by the times [add] was called with, in the
    order of the calls: the other two arguments are the same in every
    call.  In [m < e] the [int] is converted to [unsigned]; in [T / e * m]
    both integers are converted to [Real]. *)
Fixpoint add_events (fuel : nat) (T : Real) (e : Z) (m : Z) (stepper : list Real)
  : option (list Real) :=
  match fuel with
  | O => None
  | S fuel =>
      if (m <? to_unsigned e)%Z
      then add_events fuel T e (to_unsigned (m + 1))
             (stepper ++ [Rmul (Rdiv T (Rof_int e)) (Rof_int m)])
      else Some stepper
  end.

Definition exercise_events (p : params) : option (list Real) :=
  add_events (S (Z.to_nat (to_unsigned (e p)))) (T p) (e p) 0 [].

(** What a run of the program did; [cerr] is what was written to the
    standard error. *)
Inductive run :=
  | Exited (status : Z) (cerr : ostream Real)
      (* [main] returned from inside the options loop *)
  | Solved (cerr : ostream Real) (p : params) (events : option (list Real)).
      (* [main] went on to build the grid, register the exercise events
         and solve, with these values of its variables *)

(** [int main(int argc, char **argv)], up to the registration of the
    events. *)
Definition main (opts : list (ascii * string)) : run :=
  match options_loop opts defaults [] with
  | (cerr, Return status) => Exited status cerr
  | (cerr, Break p) => Solved cerr p (exercise_events p)
  end.

End Main.
End Main.

(** ** IEEE 754 double precision *)

Definition float_of_Z (z : Z) : float :=
  match z with
  | Z0 => PrimFloat.of_uint63 (Uint63.of_Z 0)
  | Zpos _ => PrimFloat.of_uint63 (Uint63.of_Z z)
  | Zneg p => PrimFloat.opp (PrimFloat.of_uint63 (Uint63.of_Z (Zpos p)))
  end.

(** The literal is exact or correctly rounded while the digits and the
    power of ten are below [2^53]; that covers every literal of the two
    source files. *)
Definition float_dec (m e : Z) : float :=
  if (0 <=? e)%Z then float_of_Z (m * 10 ^ e)
  else PrimFloat.div (float_of_Z m) (float_of_Z (10 ^ (- e))).

#[export] Instance binary64 : RealOps float := {
  Rdec := float_dec;
  Radd := PrimFloat.add;
  Rmul := PrimFloat.mul;
  Rdiv := PrimFloat.div;
  Rlt := PrimFloat.ltb;
  Rle := PrimFloat.leb;
  Rof_int := float_of_Z
}.

(** ** Exact arithmetic *)

(** The rational numbers, as the arithmetic that neither rounds nor
    overflows. *)
Definition Qc_of_Z (z : Z) : Qc := Q2Qc (inject_Z z).

Definition Qc_literal (m e : Z) : Qc :=
  if (0 <=? e)%Z then Qc_of_Z (m * 10 ^ e)
  else (Qc_of_Z m / Qc_of_Z (10 ^ (- e)))%Qc.

#[export] Instance rational : RealOps Qc := {
  Rdec := Qc_literal;
  Radd := Qcplus;
  Rmul := Qcmult;
  Rdiv := Qcdiv;
  Rlt x y := bool_decide (x < y)%Qc;
  Rle x y := bool_decide (x ≤ y)%Qc;
  Rof_int := Qc_of_Z
}.

(** ** The C library's conversions, for decimal arguments *)

Module Libc.

Definition isspace (c : ascii) : bool :=
  let k := nat_of_ascii c in (k =? 32) || ((9 <=? k) && (k <=? 13)).

Definition digit (c : ascii) : option Z :=
  let k := nat_of_ascii c in
  if (48 <=? k) && (k <=? 57) then Some (Z.of_nat k - 48)%Z else None.

Fixpoint skip_space (s : string) : string :=
  match s with
  | String c s' => if isspace c then skip_space s' else s
  | EmptyString => s
  end.

(** The digits at the front of [s], after the digits [acc]: their value,
    how many there were, and the rest of [s]. *)
Fixpoint digits (s : string) (acc : Z) (k : Z) : Z * Z * string :=
  match s with
  | String c s' =>
      match digit c with
      | Some d => digits s' (10 * acc + d)%Z (k + 1)%Z
      | None => (acc, k, s)
      end
  | EmptyString => (acc, k, s)
  end.

Definition sign (s : string) : bool * string :=
  match s with
  | String "-" s' => (true, s')
  | String "+" s' => (false, s')
  | _ => (false, s)
  end.

(** [atoi]: white space, an optional sign, decimal digits; [0] when there
    is no digit.  (The value is [atoi]'s while it fits an [int].) *)
Definition atoi (s : string) : Z :=
  let '(neg, s) := sign (skip_space s) in
  let '(m, _, _) := digits s 0 0 in
  if neg then (- m)%Z else m.

(** [atof] on [digits] and [digits.digits] with an optional sign, into
    double precision; the result is [atof]'s while the digits are fewer
    than sixteen, where [float_dec] rounds correctly.  Exponents,
    hexadecimal digits, infinities and NaNs are left out: the conversion
    stops in front of them. *)
Definition atof (s : string) : float :=
  let '(neg, s) := sign (skip_space s) in
  let '(m, _, s) := digits s 0 0 in
  let '(m, k) := match s with
                 | String "." s' => let '(m', k, _) := digits s' m 0 in (m', k)
                 | _ => (m, 0%Z)
                 end in
  float_dec (if neg then (- m)%Z else m) (- k).

End Libc.

(** ** The vocabulary of the specification *)

Section Vocabulary.
Context `{RealOps Real}.

(** In the heap [h], the axis [a] owns an array of exactly the ticks
    [ticks], all of them written. *)
Definition holds (h : heap Real) (a : Axis.t) (ticks : list Real) : Prop :=
  ∃ l, Axis.n a = Ptr l ∧ h !! l = Some (Some <$> ticks) ∧
       Axis.length a = length ticks.

(** The tick [a(i)], when the read is defined. *)
Definition tick_at (h : heap Real) (a : Axis.t) (i : nat) : option Real :=
  match Axis.get a i h with
  | Done x _ => Some x
  | _ => None
  end.

(** The invariant of an axis: [tick[i] < tick[i+1]] for all valid [i]. *)
Definition strictly_increasing (ticks : list Real) : Prop :=
  ∀ i x y, ticks !! i = Some x → ticks !! (i + 1) = Some y → Rlt x y = true.

Fixpoint increasing (ticks : list Real) : bool :=
  match ticks with
  | x :: (y :: _) as rest => Rlt x y && increasing rest
  | _ => true
  end.

(** The tick that [refine] puts between [x] and [y]. *)
Definition midpoint (x y : Real) : Real := Rdiv (Radd x y) (Rdec 2 0).

(** The ticks of an axis with the midpoint of every adjacent pair put
    between the two: what [refine] is proved to store, [x] being the first
    tick and [rest] the others. *)
Fixpoint refined (x : Real) (rest : list Real) : list Real :=
  match rest with
  | [] => [x]
  | y :: rest' => x :: midpoint x y :: refined y rest'
  end.

(** Every midpoint is strictly between the two ticks it is computed
    from. *)
Definition midpoints_between (ticks : list Real) : Prop :=
  ∀ i x y, ticks !! i = Some x → ticks !! (i + 1) = Some y →
    Rlt x (midpoint x y) = true ∧ Rlt (midpoint x y) y = true.

Fixpoint between (ticks : list Real) : bool :=
  match ticks with
  | x :: (y :: _) as rest =>
      Rlt x (midpoint x y) && Rlt (midpoint x y) y && between rest
  | _ => true
  end.

(** The characters a stream shows for what was inserted, when [show]
    gives the characters of a [Real]. *)
Definition render_item (show : Real → string) (i : item Real) : string :=
  match i with
  | Char c => String c EmptyString
  | Text s => s
  | Number x => show x
  | Endl => String "010" EmptyString
  end.

Definition render (show : Real → string) (os : ostream Real) : string :=
  foldr (λ i s, render_item show i +:+ s) EmptyString os.

(** [b] is a copy of [a] with storage of its own: the same size and the
    same ticks, and a write to any tick of [b] through the non-const
    [operator()] changes that tick of [b] and no tick of [a]. *)
Definition deep_copy (h : heap Real) (a b : Axis.t) (ticks : list Real) : Prop :=
  Axis.size b = Axis.size a ∧
  holds h a ticks ∧ holds h b ticks ∧
  (∀ i, tick_at h b i = tick_at h a i) ∧
  ∀ i x, i < Axis.size b →
    ∃ h', Axis.set b i x h = Done tt h' ∧
          holds h' b (<[i := x]> ticks) ∧ holds h' a ticks ∧
          ∀ j, tick_at h' a j = tick_at h a j.

(** An option that passes through the [switch] of [main] without a
    [return]: the value of [-e], [-N], [-R] or [-T] satisfies its check, and
    the option is not [-h] or one that [getopt] rejected. *)
Definition passes (atoi : string → Z) (atof : string → Real)
    (o : ascii * string) : bool :=
  match o.1 with
  | "e"%char => (0 <=? atoi o.2)%Z
  | "N"%char => (0 <? atoi o.2)%Z
  | "R"%char => (0 <=? atoi o.2)%Z
  | "T"%char => negb (Rle (atof o.2) (Rdec 0 0))
  | "h"%char | ":"%char | "?"%char => false
  | _ => true
  end.

(** The [optarg] of the last option [c] that [getopt] returned, if there
    was one. *)
Fixpoint last_arg (c : ascii) (opts : list (ascii * string)) : option string :=
  match opts with
  | [] => None
  | (c', optarg) :: opts =>
      match last_arg c opts with
      | Some s => Some s
      | None => if Ascii.eqb c' c then Some optarg else None
      end
  end.

(** The four messages of the checks of [main]. *)
Definition error_messages : list (ostream Real) :=
  [ [Text "error: the number of premature exercises must be nonnegative"; Endl];
    [Text "error: the number of steps must be positive"; Endl];
    [Text "error: the maximum level of refinement must be nonnegative"; Endl];
    [Text "error: expiry time must be positive"; Endl] ].

(** What [getopt] can return for the option string ["d:e:hK:N:r:R:T:v:"]:
    one of its option characters, or ['?']. *)
Definition getopt_returns (o : ascii * string) : bool :=
  match o.1 with
  | "d"%char | "e"%char | "h"%char | "K"%char | "N"%char
  | "r"%char | "R"%char | "T"%char | "v"%char | "?"%char => true
  | _ => false
  end.

End Vocabulary.

(** ** The driver in double precision *)

(** The axis of the spatial grid of [main], as its constructor leaves it in
    an empty heap. *)
Definition grid_heap : heap float :=
  {[ 1%positive := Some <$> Main.grid_ticks ]}.
Definition grid_axis : Axis.t := Axis.Make (Ptr 1%positive) 34.

(** Two adjacent doubles: [1] and the next one, [1 + 2^-52]. *)
Definition adjacent_ticks : list float := [1; 0x1.0000000000001p+0]%float.

(** Two large doubles, [2^1023] and [1.5 * 2^1023], whose sum is above the
    largest double. *)
Definition huge_ticks : list float := [0x1p+1023; 0x1.8p+1023]%float.



(** A heap with two axes: the one of the grid, and one of the two adjacent
    doubles. *)
Definition two_heap : heap float :=
  <[ 2%positive := Some <$> adjacent_ticks ]> grid_heap.
Definition adjacent_axis : Axis.t := Axis.Make (Ptr 2%positive) 2.

(** An axis of no ticks, as the vector constructor leaves it in an empty
    heap. *)
Definition empty_heap : heap float := {[ 1%positive := [] ]}.
Definition empty_axis : Axis.t := Axis.Make (Ptr 1%positive) 0.

(* ================================================================== *)
(** * Part II: properties                                              *)
(* ================================================================== *)

(** ** The heap operations *)

Section MemFacts.
Context {Real : Type}.
Implicit Types (h : heap Real) (l : loc) (b : block Real).

Lemma bind_done {A B} (m : M Real A) (k : A → M Real B) h a h' :
  m h = Done a h' → Mem.bind m k h = k a h'.
Proof. unfold Mem.bind. by intros ->. Qed.

Lemma fresh_unused h : h !! fresh (dom h) = None.
Proof. apply not_elem_of_dom, is_fresh. Qed.

Lemma fresh_ne h l b : h !! l = Some b → l ≠ fresh (dom h).
Proof. intros Hl ->. by rewrite fresh_unused in Hl. Qed.

Lemma new_array_done h (k : nat) :
  new_array (Z.of_nat k) h
  = Done (fresh (dom h)) (<[fresh (dom h) := replicate k None]> h).
Proof.
  unfold new_array. destruct (Z.ltb_spec (Z.of_nat k) 0); [lia|].
  by rewrite Nat2Z.id.
Qed.

Lemma load_done h l b i x :
  h !! l = Some b → b !! i = Some (Some x) → load (Ptr l) i h = Done x h.
Proof. unfold load. by intros -> ->. Qed.

Lemma store_done h l b i x :
  h !! l = Some b → i < length b →
  store (Ptr l) i x h = Done tt (<[l := <[i := Some x]> b]> h).
Proof. unfold store. intros -> ?. by rewrite decide_True. Qed.

End MemFacts.

(** ** The loop of refine *)

Section RefineFacts.
Context `{RealOps Real}.
Implicit Types (h : heap Real) (l : loc) (ticks : list Real).

Lemma refined_length x rest : length (refined x rest) = 2 * length rest + 1.
Proof. revert x. induction rest as [|y rest IH]; intros x; simpl; [done|]. rewrite IH. lia. Qed.

Lemma refined_even x rest k : refined x rest !! (2 * k) = (x :: rest) !! k.
Proof.
  revert x k. induction rest as [|y rest IH]; intros x [|k]; try done.
  replace (2 * S k) with (S (S (2 * k))) by lia. apply IH.
Qed.

Lemma refined_odd x rest k a b :
  (x :: rest) !! k = Some a → (x :: rest) !! (k + 1) = Some b →
  refined x rest !! (2 * k + 1) = Some (midpoint a b).
Proof.
  revert x k. induction rest as [|y rest IH]; intros x [|k]; try done.
  - by intros [= ->] [= ->].
  - intros Ha Hb. replace (2 * S k + 1) with (S (S (2 * k + 1))) by lia.
    by apply IH.
Qed.

Lemma refine_loop_done fuel l l' ticks res i h (b : block Real) :
  length res = 2 * length ticks - 1 →
  (∀ k, res !! (2 * k) = ticks !! k) →
  (∀ k xa xb, ticks !! k = Some xa → ticks !! (k + 1) = Some xb →
     res !! (2 * k + 1) = Some (midpoint xa xb)) →
  l ≠ l' →
  1 ≤ i ≤ length ticks → length ticks - i < fuel →
  h !! l = Some (Some <$> ticks) →
  h !! l' = Some b →
  length b = 2 * length ticks - 1 →
  (∀ k, k < 2 * i - 1 → b !! k = Some <$> (res !! k)) →
  Axis.refine_loop fuel (Axis.Make (Ptr l) (length ticks))
    (Axis.Make (Ptr l') (2 * length ticks - 1)) i (2 * i - 1) h
  = Done tt (<[l' := Some <$> res]> h).
Proof.
  intros Hres Heven Hodd Hne. revert i h b.
  induction fuel as [|fuel IH]; intros i h b Hi Hfuel Hl Hl' Hlen Hinv; [lia|].
  cbn [Axis.refine_loop Axis.length Axis.n].
  destruct (decide (i < length ticks)) as [Hlt|Hge].
  - destruct (lookup_lt_is_Some_2 ticks (i - 1)) as [xa Ha]; [lia|].
    destruct (lookup_lt_is_Some_2 ticks i) as [xb Hb]; [lia|].
    assert (load (Ptr l) (i - 1) h = Done xa h) as Hload1.
    { eapply load_done; [done|]. by rewrite list_lookup_fmap, Ha. }
    assert (load (Ptr l) i h = Done xb h) as Hload2.
    { eapply load_done; [done|]. by rewrite list_lookup_fmap, Hb. }
    rewrite (bind_done _ _ _ _ _ Hload1), (bind_done _ _ _ _ _ Hload2).
    unfold Axis.set; cbn [Axis.n].
    set (b1 := <[2 * i - 1 := Some (Rdiv (Radd xa xb) (Rdec 2 0))]> b).
    assert (store (Ptr l') (2 * i - 1) (Rdiv (Radd xa xb) (Rdec 2 0)) h
            = Done tt (<[l' := b1]> h)) as Hstore1.
    { apply store_done; [done|lia]. }
    rewrite (bind_done _ _ _ _ _ Hstore1).
    assert (load (Ptr l) i (<[l' := b1]> h) = Done xb (<[l' := b1]> h)) as Hload3.
    { eapply load_done; [by rewrite lookup_insert_ne|].
      by rewrite list_lookup_fmap, Hb. }
    rewrite (bind_done _ _ _ _ _ Hload3).
    set (b2 := <[2 * i - 1 + 1 := Some xb]> b1).
    assert (store (Ptr l') (2 * i - 1 + 1) xb (<[l' := b1]> h)
            = Done tt (<[l' := b2]> h)) as Hstore2.
    { erewrite store_done; [by rewrite insert_insert_eq|apply lookup_insert_eq|].
      unfold b1. rewrite length_insert. lia. }
    rewrite (bind_done _ _ _ _ _ Hstore2).
    replace (2 * i - 1 + 2) with (2 * (i + 1) - 1) by lia.
    rewrite (IH (i + 1) (<[l' := b2]> h) b2).
    + by rewrite insert_insert_eq.
    + lia.
    + lia.
    + by rewrite lookup_insert_ne.
    + apply lookup_insert_eq.
    + unfold b2, b1. by rewrite !length_insert.
    + intros k Hk. unfold b2, b1.
      destruct (decide (k = 2 * i - 1 + 1)) as [->|Hk1].
      { rewrite list_lookup_insert_eq by (rewrite length_insert; lia).
        replace (2 * i - 1 + 1) with (2 * i) by lia.
        by rewrite Heven, Hb. }
      rewrite list_lookup_insert_ne by done.
      destruct (decide (k = 2 * i - 1)) as [->|Hk2].
      { rewrite list_lookup_insert_eq by lia.
        replace (2 * i - 1) with (2 * (i - 1) + 1) by lia.
        erewrite Hodd; [done|done|].
        by replace (i - 1 + 1) with i by lia. }
      rewrite list_lookup_insert_ne by done. apply Hinv. lia.
  - assert (i = length ticks) as -> by lia.
    unfold ret. f_equal. rewrite <- (insert_id h l' b) at 1 by done.
    f_equal. apply list_eq. intros k.
    destruct (decide (k < 2 * length ticks - 1)) as [Hk|Hk].
    + rewrite list_lookup_fmap. by apply Hinv.
    + rewrite !lookup_ge_None_2; [done| |lia].
      rewrite length_fmap. lia.
Qed.

Lemma refine_done h a x0 rest :
  holds h a (x0 :: rest) →
  Axis.refine a h
  = Done (Axis.Make (Ptr (fresh (dom h))) (2 * length (x0 :: rest) - 1))
         (<[fresh (dom h) := Some <$> refined x0 rest]> h).
Proof.
  intros (l & Hn & Hl & Hlen). destruct a as [p len].
  cbn [Axis.length Axis.n] in Hn, Hlen. subst p len.
  set (ticks := x0 :: rest) in *. set (l' := fresh (dom h)).
  assert (l ≠ l') as Hne by by eapply fresh_ne.
  unfold Axis.refine, Axis.with_length. cbn [Axis.length Axis.n].
  replace (Z.of_nat (length ticks) * 2 - 1)%Z
    with (Z.of_nat (2 * length ticks - 1)) by (simpl; lia).
  rewrite Nat2Z.id.
  set (b0 := replicate (2 * length ticks - 1) None : block Real).
  erewrite (bind_done (Mem.bind _ _));
    [|by erewrite bind_done; [|apply new_array_done]].
  fold l' b0.
  assert (load (Ptr l) 0 (<[l' := b0]> h) = Done x0 (<[l' := b0]> h)) as Hload.
  { eapply load_done; [by rewrite lookup_insert_ne|done]. }
  rewrite (bind_done _ _ _ _ _ Hload).
  unfold Axis.set; cbn [Axis.n].
  assert (store (Ptr l') 0 x0 (<[l' := b0]> h)
          = Done tt (<[l' := <[0 := Some x0]> b0]> h)) as Hstore.
  { erewrite store_done; [by rewrite insert_insert_eq|apply lookup_insert_eq|].
    unfold b0. rewrite length_replicate. simpl. lia. }
  rewrite (bind_done _ _ _ _ _ Hstore).
  change 1 with (2 * 1 - 1) at 2.
  erewrite bind_done; [done|].
  erewrite (refine_loop_done _ l l' ticks (refined x0 rest) 1);
    [by rewrite insert_insert_eq| | | |done| | | | | |].
  - rewrite refined_length. simpl. lia.
  - apply refined_even.
  - apply refined_odd.
  - simpl; lia.
  - simpl; lia.
  - by rewrite lookup_insert_ne.
  - apply lookup_insert_eq.
  - unfold b0. by rewrite length_insert, length_replicate.
  - intros k Hk. assert (k = 0) as -> by lia.
    rewrite list_lookup_insert_eq by (unfold b0; rewrite length_replicate; simpl; lia).
    by destruct rest.
Qed.

End RefineFacts.

(** ** Construction, copies and writes *)

Section AxisFacts.
Context `{RealOps Real}.
Implicit Types (h : heap Real) (l : loc) (ticks : list Real).

Lemma increasing_spec ticks : increasing ticks = true ↔ strictly_increasing ticks.
Proof.
  induction ticks as [|x [|y rest] IH].
  - split; [intros _ i ??; by rewrite lookup_nil|done].
  - split; [intros _ [|i] ?? ?; by rewrite ?lookup_nil|done].
  - change (increasing (x :: y :: rest)) with (Rlt x y && increasing (y :: rest)).
    rewrite andb_true_iff, IH. split.
    + intros [Hxy Hrest] [|i] a b; [by intros [= <-] [= <-]|]. apply (Hrest i).
    + intros Hall. split; [by apply (Hall 0)|]. intros i a b. apply (Hall (S i)).
Qed.

Lemma between_spec ticks : between ticks = true ↔ midpoints_between ticks.
Proof.
  induction ticks as [|x [|y rest] IH].
  - split; [intros _ i ??; by rewrite lookup_nil|done].
  - split; [intros _ [|i] ?? ?; by rewrite ?lookup_nil|done].
  - change (between (x :: y :: rest))
      with (Rlt x (midpoint x y) && Rlt (midpoint x y) y && between (y :: rest)).
    rewrite !andb_true_iff, IH. split.
    + intros [Hxy Hrest] [|i] a b; [by intros [= <-] [= <-]|]. apply (Hrest i).
    + intros Hall. split; [by apply (Hall 0)|]. intros i a b. apply (Hall (S i)).
Qed.

Lemma fill_done l list i h (b : block Real) :
  h !! l = Some b → i + length list ≤ length b →
  Axis.fill (Ptr l) i list h
  = Done tt (<[l := take i b ++ (Some <$> list) ++ drop (i + length list) b]> h).
Proof.
  revert i h b. induction list as [|tick rest IH]; intros i h b Hl Hlen.
  - cbn [Axis.fill length fmap list_fmap app]. unfold ret.
    rewrite Nat.add_0_r, take_drop. by rewrite insert_id.
  - cbn [Axis.fill]. cbn [length] in Hlen.
    rewrite (bind_done _ _ _ _ _ (store_done h l b i tick Hl ltac:(lia))).
    rewrite (IH (S i) _ (<[i := Some tick]> b)).
    + rewrite insert_insert_eq. do 2 f_equal.
      rewrite (take_S_r _ _ (Some tick))
        by (apply list_lookup_insert_eq; lia).
      rewrite take_insert_ge by lia.
      rewrite drop_insert_lt by lia.
      rewrite <- app_assoc. cbn [length]. replace (i + S (length rest)) with (S i + length rest) by lia. done.
    + apply lookup_insert_eq.
    + rewrite length_insert. lia.
Qed.

Lemma check_increasing_spec fuel l ticks i h :
  h !! l = Some (Some <$> ticks) → length ticks - i < fuel →
  Axis.check_increasing fuel (Ptr l) (length ticks) i h
  = if increasing (drop i ticks) then Done tt h else AssertFailed.
Proof.
  intros Hl. revert i. induction fuel as [|fuel IH]; intros i Hfuel; [lia|].
  cbn [Axis.check_increasing].
  destruct (Z.ltb_spec (Z.of_nat i) (Z.of_nat (length ticks) - 1)) as [Hlt|Hge].
  - destruct (lookup_lt_is_Some_2 ticks i) as [x Hx]; [lia|].
    destruct (lookup_lt_is_Some_2 ticks (i + 1)) as [y Hy]; [lia|].
    erewrite bind_done;
      [|eapply load_done; [done|by rewrite list_lookup_fmap, Hx]].
    erewrite bind_done;
      [|eapply load_done; [done|by rewrite list_lookup_fmap, Hy]].
    rewrite (drop_S _ _ _ Hx). replace (S i) with (i + 1) by lia.
    rewrite (drop_S _ _ _ Hy).
    change (increasing (x :: y :: ?r)) with (Rlt x y && increasing (y :: r)).
    rewrite <- (drop_S _ _ _ Hy).
    destruct (Rlt x y); [|done]. apply IH. lia.
  - unfold ret.
    destruct (drop i ticks) as [|x [|y rest]] eqn:Hdrop; [done|done|].
    apply (f_equal length) in Hdrop. rewrite length_drop in Hdrop.
    cbn [length] in Hdrop. lia.
Qed.

(** What the constructor leaves when no assertion stops it. *)
Lemma from_list_release h list :
  Axis.from_list Release list h
  = Done (Axis.Make (Ptr (fresh (dom h))) (length list))
         (<[fresh (dom h) := Some <$> list]> h).
Proof.
  unfold Axis.from_list, cxx_assert.
  rewrite (bind_done _ _ _ _ _ (new_array_done h _)).
  erewrite bind_done;
    [|by apply fill_done; [apply lookup_insert_eq|rewrite length_replicate]].
  rewrite insert_insert_eq. cbn [take app].
  rewrite drop_ge, app_nil_r by (rewrite length_replicate; lia).
  by erewrite bind_done.
Qed.

Lemma from_list_debug h list :
  Axis.from_list Debug list h
  = if (0 <? length list) && increasing list
    then Done (Axis.Make (Ptr (fresh (dom h))) (length list))
              (<[fresh (dom h) := Some <$> list]> h)
    else AssertFailed.
Proof.
  unfold Axis.from_list, cxx_assert.
  erewrite bind_done; [|done].
  destruct (0 <? length list) eqn:Hpos; [|done]. cbn [andb].
  rewrite (bind_done _ _ _ _ _ (new_array_done h _)).
  erewrite bind_done;
    [|by apply fill_done; [apply lookup_insert_eq|rewrite length_replicate]].
  rewrite insert_insert_eq. cbn [take app].
  rewrite drop_ge, app_nil_r by (rewrite length_replicate; lia).
  unfold Mem.bind at 1.
  rewrite check_increasing_spec by first [apply lookup_insert_eq | lia].
  rewrite drop_0. by destruct (increasing list).
Qed.

Lemma from_vector_done h vector :
  Axis.from_vector vector h
  = Done (Axis.Make (Ptr (fresh (dom h))) (length vector))
         (<[fresh (dom h) := Some <$> vector]> h).
Proof.
  unfold Axis.from_vector.
  rewrite (bind_done _ _ _ _ _ (new_array_done h _)).
  unfold Mem.bind, memcpy_from. rewrite lookup_insert_eq.
  rewrite decide_True by (by rewrite length_replicate).
  rewrite insert_insert_eq, firstn_all.
  by rewrite drop_ge, app_nil_r by (rewrite length_replicate; lia).
Qed.

Lemma copy_done h a ticks :
  holds h a ticks →
  Axis.copy a h
  = Done (Axis.Make (Ptr (fresh (dom h))) (length ticks))
         (<[fresh (dom h) := Some <$> ticks]> h).
Proof.
  intros (l & Hn & Hl & Hlen). unfold Axis.copy. rewrite Hn, Hlen.
  rewrite (bind_done _ _ _ _ _ (new_array_done h _)).
  unfold Mem.bind, memcpy. rewrite lookup_insert_eq.
  rewrite lookup_insert_ne by (symmetry; by eapply fresh_ne). rewrite Hl.
  rewrite decide_True by (by rewrite length_replicate, length_fmap).
  rewrite insert_insert_eq.
  rewrite take_ge by (by rewrite length_fmap).
  by rewrite drop_ge, app_nil_r by (rewrite length_replicate; lia).
Qed.

Lemma set_done h a ticks i x :
  holds h a ticks → i < length ticks →
  ∃ l, Axis.n a = Ptr l ∧
       Axis.set a i x h = Done tt (<[l := Some <$> <[i := x]> ticks]> h).
Proof.
  intros (l & Hn & Hl & Hlen) Hi. exists l. split; [done|].
  unfold Axis.set. rewrite Hn.
  erewrite store_done; [|done|by rewrite length_fmap].
  by rewrite list_fmap_insert.
Qed.

Lemma tick_at_holds h a ticks i : holds h a ticks → tick_at h a i = ticks !! i.
Proof.
  intros (l & Hn & Hl & Hlen). unfold tick_at, Axis.get, load. rewrite Hn, Hl.
  rewrite list_lookup_fmap. by destruct (ticks !! i).
Qed.

Lemma holds_unique h a ticks ticks' : holds h a ticks → holds h a ticks' → ticks = ticks'.
Proof.
  intros (l & Hn & Hl & _) (l' & Hn' & Hl' & _).
  rewrite Hn in Hn'. injection Hn' as <-. rewrite Hl in Hl'.
  injection Hl' as Heq. by apply (inj (fmap Some)) in Heq.
Qed.

(** Storing into another array does not change what an axis holds. *)
Lemma holds_insert_ne h a ticks l (b : block Real) :
  holds h a ticks → Axis.n a ≠ Ptr l → holds (<[l := b]> h) a ticks.
Proof.
  intros (la & Hn & Hl & Hlen) Hne. exists la. split_and!; [done| |done].
  rewrite lookup_insert_ne; [done|]. intros ->. by rewrite Hn in Hne.
Qed.

Lemma holds_fresh h a ticks : holds h a ticks → Axis.n a ≠ Ptr (fresh (dom h)).
Proof.
  intros (la & Hn & Hl & _). rewrite Hn. intros [= ->].
  by rewrite fresh_unused in Hl.
Qed.

End AxisFacts.

(** ** refine *)

Section Refine.
Context `{RealOps Real}.
Implicit Types (h : heap Real) (l : loc) (ticks : list Real).

Lemma refined_increasing x rest :
  increasing (refined x rest) = between (x :: rest).
Proof.
  revert x. induction rest as [|y rest IH]; intros x; [done|].
  change (refined x (y :: rest)) with (x :: midpoint x y :: refined y rest).
  change (between (x :: y :: rest))
    with (Rlt x (midpoint x y) && Rlt (midpoint x y) y && between (y :: rest)).
  rewrite <- IH, <- andb_assoc. destruct rest; reflexivity.
Qed.


(** What [refine] would have to check, and does not: the axis it returns
    has strictly increasing ticks exactly when every midpoint it computed
    is above the tick before it and below the tick after it, in the order
    [<] of [Real]. *)
Lemma refine_increasing_iff h a ticks :
  holds h a ticks → 1 ≤ length ticks →
  ∃ r h' ticks',
    Axis.refine a h = Done r h' ∧ holds h' r ticks' ∧
    (strictly_increasing ticks' ↔ midpoints_between ticks).
Proof.
  intros Ha Hn. destruct ticks as [|x0 rest]; [simpl in Hn; lia|].
  eexists _, _, (refined x0 rest). split; [by apply refine_done|]. split.
  - eexists. split_and!; [done|apply lookup_insert_eq|].
    rewrite refined_length. simpl. lia.
  - by rewrite <- increasing_spec, <- between_spec, refined_increasing.
Qed.

(** C7. [refine] does not change its receiver: afterwards the axis has the
    ticks it had.  The result is a new axis of 2n-1 ticks in an array of
    its own, at a location that was not live before, so that a write to any
    tick of the result changes the result and leaves the receiver as it
    was. *)
Theorem refine_leaves_receiver h a ticks :
  holds h a ticks → 1 ≤ length ticks →
  ∃ r h' ticks' l',
    Axis.refine a h = Done r h' ∧
    holds h' a ticks ∧ (∀ i, tick_at h' a i = tick_at h a i) ∧
    holds h' r ticks' ∧
    Axis.size r = 2 * length ticks - 1 ∧ length ticks' = 2 * length ticks - 1 ∧
    Axis.n r = Ptr l' ∧ h !! l' = None ∧ Axis.n r ≠ Axis.n a ∧
    ∀ i x, i < Axis.size r →
      ∃ h'', Axis.set r i x h' = Done tt h'' ∧
             holds h'' r (<[i := x]> ticks') ∧
             holds h'' a ticks ∧ ∀ j, tick_at h'' a j = tick_at h a j.
Proof.
  intros Ha Hn. destruct ticks as [|x0 rest]; [simpl in Hn; lia|].
  pose proof (holds_fresh _ _ _ Ha) as Hne.
  set (l' := fresh (dom h)) in *.
  set (h' := <[l' := Some <$> refined x0 rest]> h).
  set (r := Axis.Make (Ptr l') (2 * length (x0 :: rest) - 1)).
  assert (holds h' a (x0 :: rest)) as Ha' by by apply holds_insert_ne.
  assert (length (refined x0 rest) = 2 * length (x0 :: rest) - 1) as Hlen.
  { rewrite refined_length. simpl. lia. }
  assert (holds h' r (refined x0 rest)) as Hr.
  { exists l'. split_and!; [done|apply lookup_insert_eq|done]. }
  exists r, h', (refined x0 rest), l'.
  split; [by apply refine_done|]. split_and!.
  - done.
  - intros i. by rewrite (tick_at_holds _ _ _ _ Ha), (tick_at_holds _ _ _ _ Ha').
  - done.
  - done.
  - done.
  - done.
  - apply fresh_unused.
  - done.
  - intros i x Hi. cbn [Axis.size Axis.length r] in Hi.
    destruct (set_done h' r (refined x0 rest) i x Hr) as (l & Hl & Hset); [lia|].
    injection Hl as <-.
    assert (holds (<[l' := Some <$> <[i := x]> (refined x0 rest)]> h') a (x0 :: rest))
      as Ha'' by by apply holds_insert_ne.
    eexists. split_and!; [done| |done|].
    + exists l'. split_and!; [done|apply lookup_insert_eq|].
      by rewrite length_insert.
    + intros j.
      by rewrite (tick_at_holds _ _ _ _ Ha), (tick_at_holds _ _ _ _ Ha'').
Qed.

End Refine.

(** ** Constructors and copies *)

Section Construct.
Context `{RealOps Real}.
Implicit Types (h : heap Real) (l : loc) (ticks : list Real).

(** C4. The constructor from an initializer list checks, in a debug build
    only, that the list is not empty and strictly increasing, and an
    assertion fails otherwise; when both hold the axis has the size of the
    list and stores its ticks in order; a release build checks nothing and
    stores whatever list it is given. *)
Theorem from_list_checks h (list : list Real) :
  (Axis.from_list Debug list h = AssertFailed
   ↔ list = [] ∨ ¬ strictly_increasing list) ∧
  (list ≠ [] → strictly_increasing list →
   ∃ a h', Axis.from_list Debug list h = Done a h' ∧
           Axis.size a = length list ∧ holds h' a list ∧
           ∀ i, tick_at h' a i = list !! i) ∧
  (∃ a h', Axis.from_list Release list h = Done a h' ∧
           Axis.size a = length list ∧ holds h' a list ∧
           ∀ i, tick_at h' a i = list !! i).
Proof.
  assert (holds (<[fresh (dom h) := Some <$> list]> h)
            (Axis.Make (Ptr (fresh (dom h))) (length list)) list) as Hnew.
  { eexists. split_and!; [done|apply lookup_insert_eq|done]. }
  rewrite from_list_debug, from_list_release. split_and!.
  - destruct list as [|x rest].
    + split; [by left|done].
    + cbn [length Nat.ltb Nat.leb andb].
      destruct (increasing (x :: rest)) eqn:Hinc.
      * apply increasing_spec in Hinc. split; [done|]. by intros [|].
      * split; [|done]. intros _. right. intros Hs%increasing_spec. congruence.
  - intros Hne Hs. apply increasing_spec in Hs. rewrite Hs.
    destruct list; [done|]. cbn [length Nat.ltb Nat.leb andb].
    eexists _, _. split_and!; [done..|]. intros i. by apply tick_at_holds.
  - eexists _, _. split_and!; [done..|]. intros i. by apply tick_at_holds.
Qed.

(** C5. The constructor from a vector checks nothing, neither that the
    vector is not empty nor that it increases: the axis has the size of the
    vector and its tick at every index is the element of the vector at that
    index. *)
Theorem from_vector_verbatim h (vector : list Real) :
  ∃ a h', Axis.from_vector vector h = Done a h' ∧
          Axis.size a = length vector ∧ holds h' a vector ∧
          ∀ i, tick_at h' a i = vector !! i.
Proof.
  rewrite from_vector_done. eexists _, _. split; [done|].
  assert (holds (<[fresh (dom h) := Some <$> vector]> h)
            (Axis.Make (Ptr (fresh (dom h))) (length vector)) vector) as Hnew.
  { eexists. split_and!; [done|apply lookup_insert_eq|done]. }
  split_and!; [done..|]. intros i. by apply tick_at_holds.
Qed.

Lemma deep_copy_intro h a b ticks :
  holds h a ticks → holds h b ticks → Axis.n b ≠ Axis.n a → deep_copy h a b ticks.
Proof.
  intros Ha Hb Hne. unfold deep_copy. split_and!; [|done|done| |].
  - destruct Ha as (? & _ & _ & Hla), Hb as (? & _ & _ & Hlb).
    unfold Axis.size. congruence.
  - intros i. by rewrite (tick_at_holds _ _ _ _ Ha), (tick_at_holds _ _ _ _ Hb).
  - intros i x Hi.
    assert (i < length ticks) as Hi'.
    { destruct Hb as (? & _ & _ & <-). exact Hi. }
    destruct (set_done h b ticks i x Hb Hi') as (l & Hl & Hset).
    assert (holds (<[l := Some <$> <[i := x]> ticks]> h) a ticks) as Ha'.
    { apply holds_insert_ne; [done|]. by rewrite <- Hl. }
    eexists. split_and!; [done| |done|].
    + exists l. split_and!; [done|apply lookup_insert_eq|].
      destruct Hb as (? & _ & _ & ->). by rewrite length_insert.
    + intros j. by rewrite (tick_at_holds _ _ _ _ Ha), (tick_at_holds _ _ _ _ Ha').
Qed.

(** C6. Copies of an axis are deep, by the copy constructor and by
    assignment (to an axis [this] with an array of its own): the copy has
    the size and the ticks of the original, and a write to a tick of the
    copy leaves every tick of the original as it was. *)
Theorem copies_are_deep h a ticks :
  holds h a ticks →
  (∃ b h', Axis.copy a h = Done b h' ∧ deep_copy h' a b ticks) ∧
  (∀ this old, holds h this old → Axis.n this ≠ Axis.n a →
     ∃ b h', Axis.assign this a h = Done b h' ∧ deep_copy h' a b ticks).
Proof.
  intros Ha. pose proof (holds_fresh _ _ _ Ha) as Hfresh.
  assert (holds (<[fresh (dom h) := Some <$> ticks]> h)
            (Axis.Make (Ptr (fresh (dom h))) (length ticks)) ticks) as Hb.
  { eexists. split_and!; [done|apply lookup_insert_eq|done]. }
  split.
  - eexists _, _. split; [by apply copy_done|].
    apply deep_copy_intro; [by apply holds_insert_ne|done|done].
  - intros this old Hthis Hne.
    destruct Hthis as (lo & Hno & Hlo & Hleno).
    destruct Ha as (la & Hna & Hla & Hlena).
    assert (lo ≠ fresh (dom h)) as Hlo' by by eapply fresh_ne.
    assert (la ≠ fresh (dom h)) as Hla' by by eapply fresh_ne.
    assert (la ≠ lo) as Hlalo by (intros ->; congruence).
    unfold Axis.assign.
    erewrite bind_done; [|apply copy_done; by exists la].
    unfold Axis.assign_from, Axis.destroy. cbn [Axis.n Axis.length].
    unfold Mem.bind, delete_array. rewrite Hno.
    rewrite lookup_insert_ne, Hlo by done.
    eexists _, _. split; [done|].
    apply deep_copy_intro.
    + exists la. split_and!; [done| |done].
      by rewrite lookup_delete_ne, lookup_insert_ne.
    + eexists. split_and!; [done| |done].
      by rewrite lookup_delete_ne, lookup_insert_eq.
    + cbn [Axis.n]. congruence.
Qed.

End Construct.

(** ** Printing *)

Section Printing.
Context `{RealOps Real}.
Implicit Types (h : heap Real) (ticks : list Real) (os : ostream Real).

(** What the loop of [operator<<] inserts for the ticks [ticks]. *)
Local Abbreviation spaced ticks := (concat ((λ x, [Char " "; Number x]) <$> ticks)).

Lemma print_loop_done fuel os a ticks i h :
  holds h a ticks → length ticks - i < fuel →
  print_loop fuel os a i h = Done (os ++ spaced (drop i ticks)) h.
Proof.
  intros Ha. revert os i.
  induction fuel as [|fuel IH]; intros os i Hfuel; [lia|].
  cbn [print_loop]. destruct Ha as (l & Hn & Hl & Hlen).
  unfold Axis.size. rewrite Hlen.
  destruct (decide (i < length ticks)) as [Hlt|Hge].
  - destruct (lookup_lt_is_Some_2 ticks i) as [x Hx]; [lia|].
    unfold Axis.get. rewrite Hn.
    erewrite bind_done;
      [|eapply load_done; [done|by rewrite list_lookup_fmap, Hx]].
    rewrite IH by lia. rewrite (drop_S _ _ _ Hx).
    replace (i + 1) with (S i) by lia.
    cbn [fmap list_fmap concat]. by rewrite <- app_assoc.
  - rewrite drop_ge by lia. cbn [fmap list_fmap concat].
    by rewrite app_nil_r.
Qed.

Lemma string_app_assoc (s1 s2 s3 : string) : (s1 +:+ s2) +:+ s3 = s1 +:+ (s2 +:+ s3).
Proof. induction s1 as [|c s1 IH]; [done|]. exact (f_equal (String c) IH). Qed.

Lemma string_app_nil_r (s : string) : s +:+ EmptyString = s.
Proof. induction s as [|c s IH]; [done|]. exact (f_equal (String c) IH). Qed.

Lemma render_app show os1 os2 :
  render show (os1 ++ os2) = render show os1 +:+ render show os2.
Proof.
  unfold render. induction os1 as [|i os1 IH]; [done|].
  cbn [app foldr]. rewrite IH. by rewrite string_app_assoc.
Qed.

Lemma render_spaced show x ticks :
  show x +:+ render show (spaced ticks)
  = String.concat " " (show <$> x :: ticks).
Proof.
  revert x. induction ticks as [|y ticks IH]; intros x.
  - cbn. by rewrite string_app_nil_r.
  - change (String.concat " " (show <$> x :: y :: ticks))
      with (show x +:+ " " +:+ String.concat " " (show <$> y :: ticks)).
    rewrite <- IH. reflexivity.
Qed.

(** C9. For an axis of n >= 1 ticks the stream insertion operator inserts
    an opening parenthesis, the first tick, then for each further tick in
    index order a space and the tick, and a closing parenthesis; whatever
    the characters [show] of a tick are, the characters inserted read
    ["(t0 t1 ... )"], the ticks separated by single spaces. *)
Theorem print_format h a x0 rest os :
  holds h a (x0 :: rest) →
  ∃ out,
    print os a h = Done (os ++ out) h ∧
    out = [Char "("; Number x0] ++ spaced rest ++ [Char ")"] ∧
    ∀ show, render show out
            = "(" +:+ String.concat " " (show <$> x0 :: rest) +:+ ")".
Proof.
  intros Ha. eexists. split_and!; [|done|].
  - unfold print, Axis.get. destruct Ha as (l & Hn & Hl & Hlen) eqn:Ha'.
    rewrite Hn. erewrite bind_done; [|by eapply load_done].
    erewrite bind_done.
    2: { apply (print_loop_done _ _ a (x0 :: rest)); [done|].
         unfold Axis.size. rewrite Hlen. lia. }
    unfold ret. by rewrite <- !app_assoc.
  - intros show. rewrite <- render_spaced.
    change ([Char "("; Number x0] ++ spaced rest ++ [Char ")"])
      with ([Char "("] ++ [Number x0] ++ spaced rest ++ [Char ")"]).
    rewrite !render_app. cbn [render foldr render_item].
    rewrite !string_app_nil_r. by rewrite !string_app_assoc.
Qed.

End Printing.

(** ** The options and the exercise events of the Bermudan put *)

Section MainFacts.
Context `{RealOps Real}.
Variable atoi : string → Z.
Variable atof : string → Real.

Local Abbreviation option_switch := (Main.option_switch atoi atof).
Local Abbreviation options_loop := (Main.options_loop atoi atof).
Local Abbreviation main := (Main.main atoi atof).

(** A pass that ends at the [break] wrote nothing to [cerr], was for an
    option that [passes], and left in [e] either what it was or a checked
    value of [-e]. *)
Lemma option_switch_Break c optarg p out p' :
  option_switch c optarg p = (out, Main.Break p') →
  out = [] ∧ passes atoi atof (c, optarg) = true ∧
  (Main.T p' = Main.T p ∨ c = "T"%char) ∧
  (Main.e p' = Main.e p ∨ (0 ≤ Main.e p')%Z).
Proof.
  unfold passes, Main.option_switch. cbn [fst snd].
  destruct c as [[] [] [] [] [] [] [] []];
    repeat match goal with
      | |- context [if ?b then _ else _] => destruct b eqn:?
      end;
    intros [= <- <-]; cbn;
    repeat match goal with
      | H : (_ <? _)%Z = false |- _ => apply Z.ltb_ge in H
      | H : (_ <=? _)%Z = false |- _ => apply Z.leb_gt in H
      end;
    (split_and!;
     [ done
     | first [ done | by apply Z.leb_le | by apply Z.ltb_lt
             | by apply negb_true_iff ]
     | first [ by left | by right ]
     | first [ by left | by right ] ]).
Qed.

Lemma option_switch_passes c optarg p :
  passes atoi atof (c, optarg) = true →
  ∃ p', option_switch c optarg p = ([], Main.Break p').
Proof.
  unfold passes, Main.option_switch. cbn [fst snd].
  destruct c as [[] [] [] [] [] [] [] []]; intros Hp; try discriminate Hp;
    try (by eexists);
    try (apply Z.leb_le in Hp; destruct (Z.ltb_spec (atoi optarg) 0); [lia|by eexists]);
    try (apply Z.ltb_lt in Hp; destruct (Z.leb_spec (atoi optarg) 0); [lia|by eexists]).
  apply negb_true_iff in Hp. rewrite Hp. by eexists.
Qed.

(** [getopt] writes nothing when it returns an option that passes. *)
Lemma passes_getopt_quiet c optarg :
  passes atoi atof (c, optarg) = true → @Main.getopt_wrote Real c optarg = [].
Proof.
  unfold passes, Main.getopt_wrote. cbn [fst snd].
  by destruct c as [[] [] [] [] [] [] [] []].
Qed.

Lemma options_loop_passes pre rest p cerr :
  forallb (passes atoi atof) pre = true →
  ∃ p', options_loop (pre ++ rest) p cerr = options_loop rest p' cerr.
Proof.
  revert p. induction pre as [|[c optarg] pre IH]; intros p Hpre; [by eexists|].
  cbn [forallb] in Hpre. apply andb_true_iff in Hpre as [Hc Hpre].
  destruct (option_switch_passes c optarg p Hc) as [p1 Hp1].
  cbn [app Main.options_loop].
  rewrite Hp1, (passes_getopt_quiet _ _ Hc), !app_nil_r. by apply IH.
Qed.

Lemma options_loop_Break opts p cerr cerr' p' :
  options_loop opts p cerr = (cerr', Main.Break p') →
  cerr' = cerr ∧ forallb (passes atoi atof) opts = true ∧
  (Main.e p' = Main.e p ∨ (0 ≤ Main.e p')%Z).
Proof.
  revert p cerr. induction opts as [|[c optarg] opts IH]; intros p cerr.
  - cbn. intros [= <- <-]. auto.
  - cbn [Main.options_loop forallb].
    destruct (option_switch c optarg p) as [out [p1|status]] eqn:Hsw; [|done].
    apply option_switch_Break in Hsw as (-> & Hc & _ & He1).
    rewrite Hc, (passes_getopt_quiet _ _ Hc).
    intros (-> & -> & He)%IH. rewrite !app_nil_r.
    split_and!; [done..|]. destruct He as [->|]; auto.
Qed.

(** C8, as amended.  The options are handled in the order of the command
    line and the first one that does not pass decides, whatever options
    follow it: after options that all pass, [-h] writes the usage text to
    [cerr] and the exit status is 0; a negative [-e], a non-positive [-N], a
    negative [-R] or a non-positive [-T] writes its error message to [cerr]
    and the exit status is 1.  In each case [main] returns from inside the
    options loop, before the grid is built and anything is computed. *)
Theorem first_failing_option_decides pre optarg rest :
  forallb (passes atoi atof) pre = true →
  main (pre ++ ("h"%char, optarg) :: rest) = Main.Exited 0 Main.help ∧
  ((atoi optarg < 0)%Z →
   main (pre ++ ("e"%char, optarg) :: rest)
   = Main.Exited 1
       [Text "error: the number of premature exercises must be nonnegative"; Endl]) ∧
  ((atoi optarg ≤ 0)%Z →
   main (pre ++ ("N"%char, optarg) :: rest)
   = Main.Exited 1 [Text "error: the number of steps must be positive"; Endl]) ∧
  ((atoi optarg < 0)%Z →
   main (pre ++ ("R"%char, optarg) :: rest)
   = Main.Exited 1
       [Text "error: the maximum level of refinement must be nonnegative"; Endl]) ∧
  (Rle (atof optarg) (Rdec 0 0) = true →
   main (pre ++ ("T"%char, optarg) :: rest)
   = Main.Exited 1 [Text "error: expiry time must be positive"; Endl]).
Proof.
  intros Hpre. unfold Main.main.
  split_and!;
    [ destruct (options_loop_passes pre (("h"%char, optarg) :: rest)
                  Main.defaults [] Hpre) as [p ->]
    | destruct (options_loop_passes pre (("e"%char, optarg) :: rest)
                  Main.defaults [] Hpre) as [p ->]
    | destruct (options_loop_passes pre (("N"%char, optarg) :: rest)
                  Main.defaults [] Hpre) as [p ->]
    | destruct (options_loop_passes pre (("R"%char, optarg) :: rest)
                  Main.defaults [] Hpre) as [p ->]
    | destruct (options_loop_passes pre (("T"%char, optarg) :: rest)
                  Main.defaults [] Hpre) as [p ->] ];
    cbn [Main.options_loop Main.option_switch Main.getopt_wrote];
    [reflexivity|..]; intros Hneg;
    first [ by rewrite Hneg
          | apply Z.ltb_lt in Hneg; by rewrite Hneg
          | apply Z.leb_le in Hneg; by rewrite Hneg ].
Qed.

(** The program goes on to the computation exactly when every option
    passes, and then it has written nothing to [cerr]. *)
Lemma main_Solved opts cerr p events :
  main opts = Main.Solved cerr p events →
  cerr = [] ∧ forallb (passes atoi atof) opts = true ∧ (0 ≤ Main.e p)%Z ∧
  events = Main.exercise_events p.
Proof.
  unfold Main.main.
  destruct (options_loop opts Main.defaults []) as [cerr' [p'|status]] eqn:Hloop;
    [|done].
  intros [= <- <- <-].
  apply options_loop_Break in Hloop as (-> & Hpass & He).
  split_and!; [done..| |done]. by destruct He as [->|].
Qed.

Lemma add_events_done fuel T e m stepper :
  (0 ≤ m ≤ e)%Z → (e < 2 ^ 32)%Z → (Z.to_nat (e - m) < fuel) →
  Main.add_events fuel T e m stepper
  = Some (stepper ++
          ((λ m, Rmul (Rdiv T (Rof_int e)) (Rof_int m)) <$> seqZ m (e - m))).
Proof.
  revert m stepper.
  induction fuel as [|fuel IH]; intros m stepper Hm He Hfuel; [lia|].
  cbn [Main.add_events]. unfold Main.to_unsigned.
  rewrite (Z.mod_small e) by lia.
  destruct (Z.ltb_spec m e) as [Hlt|Hge].
  - rewrite (Z.mod_small (m + 1)) by lia.
    rewrite IH by lia. rewrite <- app_assoc. do 2 f_equal.
    replace (e - m)%Z with (Z.succ (e - (m + 1))) by lia.
    rewrite (seqZ_cons m) by lia. rewrite Z.pred_succ, <- Z.add_1_r.
    reflexivity.
  - replace (e - m)%Z with 0%Z by lia. by rewrite app_nil_r.
Qed.

(** C10, as amended.  When the program goes on to the computation, the
    exercise count [e] is not negative and (being an [int]) the program
    has called [stepper.add] exactly [e] times, with the times
    [T / e * m], as [Real] computes them in this order, for
    m = 0, 1, ..., e-1 in increasing order: the multiplier [e], whose time
    would be the expiry, is never used, and for e = 0 [add] is not
    called. *)
Theorem exercise_schedule opts cerr p events :
  main opts = Main.Solved cerr p events →
  (Main.e p < 2 ^ 31)%Z →
  (0 ≤ Main.e p)%Z ∧
  ∃ times,
    events = Some times ∧
    length times = Z.to_nat (Main.e p) ∧
    times = (λ m, Rmul (Rdiv (Main.T p) (Rof_int (Main.e p))) (Rof_int m))
            <$> seqZ 0 (Main.e p) ∧
    (Main.e p = 0%Z → times = []).
Proof.
  intros (_ & _ & He & ->)%main_Solved Hint. split; [done|].
  unfold Main.exercise_events, Main.to_unsigned.
  rewrite (Z.mod_small (Main.e p)) by lia.
  rewrite add_events_done by lia. rewrite Z.sub_0_r. cbn [app].
  eexists. split_and!; [done| |done|].
  - by rewrite length_fmap, length_seqZ.
  - by intros ->.
Qed.

End MainFacts.

(** ** The properties in double precision *)

Section Binary64.

Lemma grid_axis_holds : holds grid_heap grid_axis Main.grid_ticks.
Proof. exists 1%positive. split_and!; reflexivity. Qed.

Lemma grid_constructed :
  Axis.from_list Debug Main.grid_ticks ∅ = Done grid_axis grid_heap.
Proof. vm_compute. reflexivity. Qed.


(** C2.  The invariant fails on the code.  The axes [{1, 1 + 2^-52}] and
    [{2^1023, 1.5 * 2^1023}] are strictly increasing and pass the checks of
    a debug build.  The midpoint of the first, [(1 + (1 + 2^-52)) / 2.], is
    [1], and the refined axis is [{1, 1, 1 + 2^-52}]; the sum of the second
    overflows, and the refined axis is [{2^1023, infinity, 1.5 * 2^1023}]:
    neither is strictly increasing. *)
Lemma refine_breaks_increasing :
  (strictly_increasing adjacent_ticks ∧
   ∃ a h r h',
     Axis.from_list Debug adjacent_ticks ∅ = Done a h ∧
     Axis.refine a h = Done r h' ∧
     holds h' r [1; 1; 0x1.0000000000001p+0]%float ∧
     ¬ strictly_increasing [1; 1; 0x1.0000000000001p+0]%float) ∧
  (strictly_increasing huge_ticks ∧
   ∃ a h r h',
     Axis.from_list Debug huge_ticks ∅ = Done a h ∧
     Axis.refine a h = Done r h' ∧
     holds h' r [0x1p+1023; infinity; 0x1.8p+1023]%float ∧
     ¬ strictly_increasing [0x1p+1023; infinity; 0x1.8p+1023]%float).
Proof.
  split.
  - split; [by apply increasing_spec|].
    exists (Axis.Make (Ptr 1%positive) 2),
           {[ 1%positive := Some <$> adjacent_ticks ]},
           (Axis.Make (Ptr 2%positive) 3),
           (<[ 2%positive := Some <$> [1; 1; 0x1.0000000000001p+0]%float ]>
              {[ 1%positive := Some <$> adjacent_ticks ]}).
    split_and!.
    + vm_compute. reflexivity.
    + vm_compute. reflexivity.
    + exists 2%positive. split_and!; reflexivity.
    + intros Hs%increasing_spec. vm_compute in Hs. discriminate Hs.
  - split; [by apply increasing_spec|].
    exists (Axis.Make (Ptr 1%positive) 2),
           {[ 1%positive := Some <$> huge_ticks ]},
           (Axis.Make (Ptr 2%positive) 3),
           (<[ 2%positive := Some <$> [0x1p+1023; infinity; 0x1.8p+1023]%float ]>
              {[ 1%positive := Some <$> huge_ticks ]}).
    split_and!.
    + vm_compute. reflexivity.
    + vm_compute. reflexivity.
    + exists 2%positive. split_and!; reflexivity.
    + intros Hs%increasing_spec. vm_compute in Hs. discriminate Hs.
Qed.


(** The midpoints of the grid of [main] are strictly between its ticks. *)
Lemma grid_midpoints_between : midpoints_between (@Main.grid_ticks float _).
Proof. by apply between_spec. Qed.

Lemma copies_are_deep_witness :
  holds two_heap grid_axis Main.grid_ticks ∧
  holds two_heap adjacent_axis adjacent_ticks ∧
  Axis.n adjacent_axis ≠ Axis.n grid_axis ∧
  (∃ b h', Axis.copy grid_axis two_heap = Done b h' ∧
           deep_copy h' grid_axis b Main.grid_ticks) ∧
  (∃ b h', Axis.assign adjacent_axis grid_axis two_heap = Done b h' ∧
           deep_copy h' grid_axis b Main.grid_ticks).
Proof.
  assert (holds two_heap grid_axis Main.grid_ticks) as Hg
    by (exists 1%positive; split_and!; reflexivity).
  assert (holds two_heap adjacent_axis adjacent_ticks) as Ha
    by (exists 2%positive; split_and!; reflexivity).
  assert (Axis.n adjacent_axis ≠ Axis.n grid_axis) as Hne by discriminate.
  split; [exact Hg|]. split; [exact Ha|]. split; [exact Hne|].
  split.
  - exact (proj1 (copies_are_deep two_heap grid_axis Main.grid_ticks Hg)).
  - exact (proj2 (copies_are_deep two_heap grid_axis Main.grid_ticks Hg)
             adjacent_axis adjacent_ticks Ha Hne).
Defined.

Lemma refine_leaves_receiver_witness :
  holds grid_heap grid_axis Main.grid_ticks ∧ 1 ≤ length (@Main.grid_ticks float _) ∧
  ∃ r h' ticks' l',
    Axis.refine grid_axis grid_heap = Done r h' ∧
    holds h' grid_axis Main.grid_ticks ∧
    (∀ i, tick_at h' grid_axis i = tick_at grid_heap grid_axis i) ∧
    holds h' r ticks' ∧
    Axis.size r = 2 * length (@Main.grid_ticks float _) - 1 ∧
    length ticks' = 2 * length (@Main.grid_ticks float _) - 1 ∧
    Axis.n r = Ptr l' ∧ grid_heap !! l' = None ∧ Axis.n r ≠ Axis.n grid_axis ∧
    ∀ i x, i < Axis.size r →
      ∃ h'', Axis.set r i x h' = Done tt h'' ∧
             holds h'' r (<[i := x]> ticks') ∧
             holds h'' grid_axis Main.grid_ticks ∧
             ∀ j, tick_at h'' grid_axis j = tick_at grid_heap grid_axis j.
Proof.
  split; [exact grid_axis_holds|]. split; [vm_compute; lia|].
  apply (refine_leaves_receiver grid_heap grid_axis Main.grid_ticks).
  - exact grid_axis_holds.
  - vm_compute. lia.
Defined.

Lemma print_format_witness :
  let h : heap float := {[ 1%positive := Some <$> [1; 2; 4]%float ]} in
  let a := Axis.Make (Ptr 1%positive) 3 in
  holds h a [1; 2; 4]%float ∧
  ∃ out,
    print [] a h = Done ([] ++ out) h ∧
    out = [Char "("; Number 1; Char " "; Number 2; Char " "; Number 4; Char ")"]%float ∧
    ∀ show, render show out
            = "(" +:+ String.concat " " (show <$> [1; 2; 4]%float) +:+ ")".
Proof.
  intros h a.
  assert (holds h a [1; 2; 4]%float) as Ha
    by (exists 1%positive; split_and!; reflexivity).
  split; [exact Ha|].
  exact (print_format h a 1%float [2; 4]%float [] Ha).
Defined.

(** [-e -1 -h]: the option [-h] is passed, and the exit status is 1, with
    the error message of [-e] and no usage text; [-h -e -1]: a negative
    value is passed to [-e], and the exit status is 0, with the usage text
    and no error message. *)
Lemma help_and_error_together :
  let e_h := [("e"%char, "-1"); ("h"%char, EmptyString)] in
  let h_e := [("h"%char, EmptyString); ("e"%char, "-1")] in
  (Libc.atoi "-1" < 0)%Z ∧
  ("h"%char, EmptyString) ∈ e_h ∧
  Main.main Libc.atoi Libc.atof e_h
  = Main.Exited 1
      [Text "error: the number of premature exercises must be nonnegative"; Endl] ∧
  ("e"%char, "-1") ∈ h_e ∧
  Main.main Libc.atoi Libc.atof h_e = Main.Exited 0 Main.help.
Proof.
  cbv zeta. split_and!.
  - vm_compute. reflexivity.
  - set_solver.
  - vm_compute. reflexivity.
  - set_solver.
  - vm_compute. reflexivity.
Qed.

Lemma first_failing_option_decides_witness :
  let pre := [("N"%char, "50"); ("T"%char, "2.5")] in
  let rest := [("e"%char, "3")] in
  forallb (passes Libc.atoi Libc.atof) pre = true ∧
  Main.main Libc.atoi Libc.atof (pre ++ ("h"%char, "-7") :: rest)
  = Main.Exited 0 Main.help ∧
  ((Libc.atoi "-7" < 0)%Z →
   Main.main Libc.atoi Libc.atof (pre ++ ("e"%char, "-7") :: rest)
   = Main.Exited 1
       [Text "error: the number of premature exercises must be nonnegative"; Endl]) ∧
  ((Libc.atoi "-7" ≤ 0)%Z →
   Main.main Libc.atoi Libc.atof (pre ++ ("N"%char, "-7") :: rest)
   = Main.Exited 1 [Text "error: the number of steps must be positive"; Endl]) ∧
  ((Libc.atoi "-7" < 0)%Z →
   Main.main Libc.atoi Libc.atof (pre ++ ("R"%char, "-7") :: rest)
   = Main.Exited 1
       [Text "error: the maximum level of refinement must be nonnegative"; Endl]) ∧
  (Rle (Libc.atof "-7") (Rdec 0 0) = true →
   Main.main Libc.atoi Libc.atof (pre ++ ("T"%char, "-7") :: rest)
   = Main.Exited 1 [Text "error: expiry time must be positive"; Endl]).
Proof.
  intros pre rest. split; [vm_compute; reflexivity|].
  apply (first_failing_option_decides Libc.atoi Libc.atof pre "-7" rest).
  vm_compute. reflexivity.
Defined.

(** With no option ([T = 1.], [e = 10]) the event of m = 3 is registered at
    [1. / 10 * 3], which is the double above [1. * 3 / 10]: the times
    registered are not the times [T * m / e]. *)
Lemma fourth_event_time :
  ∃ cerr p times,
    Main.main Libc.atoi Libc.atof [] = Main.Solved cerr p (Some times) ∧
    Main.T p = 1%float ∧ Main.e p = 10%Z ∧
    times !! 3 = Some 0x1.3333333333334p-2%float ∧
    Rdiv (Rmul (Main.T p) (Rof_int 3)) (Rof_int (Main.e p))
    = 0x1.3333333333333p-2%float ∧
    Rlt 0x1.3333333333333p-2%float 0x1.3333333333334p-2%float = true ∧
    times ≠ (λ m, Rdiv (Rmul (Main.T p) (Rof_int m)) (Rof_int (Main.e p)))
            <$> seqZ 0 (Main.e p).
Proof.
  eexists _, _, _. split_and!; [vm_compute; reflexivity..|].
  intros Heq.
  apply (f_equal (λ l, match l !! 3 with
                       | Some x => PrimFloat.ltb 0x1.3333333333333p-2 x
                       | None => false
                       end)) in Heq.
  vm_compute in Heq. discriminate Heq.
Qed.

Lemma exercise_schedule_witness :
  let opts := [("e"%char, "4"); ("T"%char, "2")] in
  ∃ cerr p events,
    Main.main Libc.atoi Libc.atof opts = Main.Solved cerr p events ∧
    (Main.e p < 2 ^ 31)%Z ∧
    (0 ≤ Main.e p)%Z ∧
    ∃ times,
      events = Some times ∧
      length times = Z.to_nat (Main.e p) ∧
      times = (λ m, Rmul (Rdiv (Main.T p) (Rof_int (Main.e p))) (Rof_int m))
              <$> seqZ 0 (Main.e p) ∧
      (Main.e p = 0%Z → times = []).
Proof.
  intros opts.
  assert (∃ cerr p events,
            Main.main Libc.atoi Libc.atof opts = Main.Solved cerr p events ∧
            (Main.e p < 2 ^ 31)%Z) as (cerr & p & events & Hmain & He).
  { eexists _, _, _. split; [vm_compute; reflexivity|]. vm_compute. reflexivity. }
  exists cerr, p, events. split; [exact Hmain|]. split; [exact He|].
  exact (exercise_schedule Libc.atoi Libc.atof opts cerr p events Hmain He).
Defined.

End Binary64.

(** ** The properties that exact arithmetic adds *)

Section Exact.
Open Scope Qc_scope.

Lemma Qc_of_Z_lt (m e : Z) : (m < e)%Z → Qc_of_Z m < Qc_of_Z e.
Proof.
  intros Hlt. unfold Qc_of_Z, Qclt. cbn [this Q2Qc].
  rewrite !Qred_correct. by rewrite <- Zlt_Qlt.
Qed.

Lemma exact_midpoint (x y : Qc) :
  x < y → x < (x + y) / 2 ∧ (x + y) / 2 < y.
Proof.
  intros Hxy.
  assert (0 < (y - x) / 2) as Hd.
  { apply Qcmult_pos_pos; [by apply Qclt_minus_iff in Hxy|by apply Qcinv_pos]. }
  split.
  - replace ((x + y) / 2) with (x + (y - x) / 2) by (by field).
    rewrite <- (Qcplus_0_r x) at 1. by apply Qcplus_lt_mono_l.
  - replace y with ((x + y) / 2 + (y - x) / 2) at 2 by (by field).
    rewrite <- (Qcplus_0_r ((x + y) / 2)) at 1. by apply Qcplus_lt_mono_l.
Qed.

(** In exact arithmetic the midpoints of a strictly increasing axis are
    strictly between its ticks, so that [refine] keeps the invariant. *)
Lemma exact_midpoints_between (ticks : list Qc) :
  strictly_increasing ticks → midpoints_between ticks.
Proof.
  intros Hs i x y Hx Hy. specialize (Hs i x y Hx Hy).
  apply bool_decide_eq_true in Hs. unfold midpoint.
  change (Rdec 2 0) with (Qc_literal 2 0).
  replace (Qc_literal 2 0) with 2 by (apply Qc_is_canon; reflexivity).
  destruct (exact_midpoint x y Hs).
  split; by apply bool_decide_eq_true.
Qed.

(** In exact arithmetic the time [T / e * m] of an exercise event is
    [T * m / e]: zero for m = 0, and before the expiry [T] for m < e. *)
Lemma exact_event_time (T : Qc) (e m : Z) :
  0 < T → (0 ≤ m < e)%Z →
  let t := Rmul (Rdiv T (Rof_int e)) (Rof_int m) in
  t = Rdiv (Rmul T (Rof_int m)) (Rof_int e) ∧
  (m = 0%Z → t = 0) ∧
  t < T.
Proof.
  intros HT Hm. cbn [Rmul Rdiv Rof_int rational].
  assert (0 < Qc_of_Z e) as He by (apply (Qc_of_Z_lt 0); lia).
  assert (Qc_of_Z e ≠ 0) as He' by (by apply Qclt_not_eq in He).
  split_and!.
  - by field.
  - intros ->. change (Qc_of_Z 0) with 0. ring.
  - replace T with (T / Qc_of_Z e * Qc_of_Z e) at 2 by (by field).
    apply Qcmult_lt_mono_pos_l; [|apply Qc_of_Z_lt; lia].
    apply Qcmult_pos_pos; [done|by apply Qcinv_pos].
Qed.

(** In exact arithmetic the tick that [refine] inserts is the arithmetic
    mean of its neighbours, exactly. *)
Lemma exact_midpoint_is_mean (x y : Qc) :
  midpoint x y + midpoint x y = x + y.
Proof.
  unfold midpoint. cbn [Rdiv Radd Rdec rational].
  replace (Qc_literal 2 0) with 2 by (apply Qc_is_canon; reflexivity).
  by field.
Qed.

(** In exact arithmetic [refine] keeps the invariant of the axis. *)
Lemma exact_refine_increasing (h : heap Qc) a ticks :
  holds h a ticks → (1 ≤ length ticks)%nat → strictly_increasing ticks →
  ∃ r h' ticks',
    Axis.refine a h = Done r h' ∧ holds h' r ticks' ∧
    strictly_increasing ticks'.
Proof.
  intros Ha Hn Hs.
  destruct (refine_increasing_iff h a ticks Ha Hn) as (r & h' & ticks' & ? & ? & Hiff).
  exists r, h', ticks'. split_and!; [done..|].
  by apply Hiff, exact_midpoints_between.
Qed.

End Exact.
(** ** Ownership of the array *)

Section Ownership.
Context `{RealOps Real}.
Implicit Types (h : heap Real) (l : loc) (ticks : list Real).

Lemma holds_new h l ticks :
  holds (<[l := Some <$> ticks]> h) (Axis.Make (Ptr l) (length ticks)) ticks.
Proof. exists l. split_and!; [done|apply lookup_insert_eq|done]. Qed.

(** Releasing the array that was allocated last gives the heap back. *)
Lemma delete_fresh h (b : block Real) :
  delete (fresh (dom h)) (<[fresh (dom h) := b]> h) = h.
Proof. rewrite delete_insert_eq. apply delete_id, fresh_unused. Qed.

Lemma destroy_done h l (b : block Real) :
  h !! l = Some b →
  ∀ len, Axis.destroy (Axis.Make (Ptr l) len) h = Done tt (delete l h).
Proof. intros Hl len. unfold Axis.destroy, delete_array. cbn. by rewrite Hl. Qed.

(** X1. The move constructor hands the array over: the new axis has the ticks,
    at the location they were, the heap is as it was, and the axis moved
    from is left with the null pointer, so that its destructor does
    nothing; the array is released once, by the destructor of the new
    axis. *)
Theorem move_hands_over h a ticks :
  holds h a ticks →
  ∃ b a' l,
    Axis.move a h = Done (b, a') h ∧
    holds h b ticks ∧ Axis.n b = Axis.n a ∧ Axis.n a = Ptr l ∧
    Axis.n a' = NULL ∧
    Axis.destroy a' h = Done tt h ∧
    Axis.destroy b h = Done tt (delete l h) ∧
    Axis.destroy a' (delete l h) = Done tt (delete l h).
Proof.
  intros (l & Hn & Hl & Hlen).
  exists (Axis.Make (Axis.n a) (Axis.length a)), (Axis.Make NULL (Axis.length a)), l.
  split_and!; try done.
  - by exists l.
  - cbn [Axis.n]. rewrite Hn. by eapply destroy_done.
Qed.

(** X2. An axis that a constructor or [refine] made, destroyed at once, leaves
    the heap as it was before: the destructor releases exactly the array
    that was allocated.  (A debug build may stop at an assertion
    instead.) *)
Theorem construct_then_destroy h (list : list Real) :
  (b ←' Axis.from_vector list; Axis.destroy b) h = Done tt h ∧
  (b ←' Axis.from_list Release list; Axis.destroy b) h = Done tt h ∧
  ((b ←' Axis.from_list Debug list; Axis.destroy b) h = Done tt h ∨
   (b ←' Axis.from_list Debug list; Axis.destroy b) h = AssertFailed) ∧
  ∀ a ticks, holds h a ticks →
    (b ←' Axis.copy a; Axis.destroy b) h = Done tt h ∧
    (1 ≤ length ticks → (b ←' Axis.refine a; Axis.destroy b) h = Done tt h).
Proof.
  split_and!.
  - rewrite (bind_done _ _ _ _ _ (from_vector_done h list)).
    erewrite destroy_done; [|apply lookup_insert_eq]. by rewrite delete_fresh.
  - rewrite (bind_done _ _ _ _ _ (from_list_release h list)).
    erewrite destroy_done; [|apply lookup_insert_eq]. by rewrite delete_fresh.
  - assert ((b ←' Axis.from_list Debug list; Axis.destroy b) h
            = if (0 <? length list) && increasing list
              then Done tt h else AssertFailed) as ->.
    { unfold Mem.bind. rewrite from_list_debug.
      destruct ((0 <? length list) && increasing list); [|done].
      erewrite destroy_done; [|apply lookup_insert_eq]. by rewrite delete_fresh. }
    destruct ((0 <? length list) && increasing list); auto.
  - intros a ticks Ha. split.
    + rewrite (bind_done _ _ _ _ _ (copy_done h a ticks Ha)).
      erewrite destroy_done; [|apply lookup_insert_eq]. by rewrite delete_fresh.
    + intros Hn. destruct ticks as [|x0 rest]; [simpl in Hn; lia|].
      rewrite (bind_done _ _ _ _ _ (refine_done h a x0 rest Ha)).
      erewrite destroy_done; [|apply lookup_insert_eq]. by rewrite delete_fresh.
Qed.

Lemma assign_done h this old a ticks lo :
  holds h this old → holds h a ticks → Axis.n this = Ptr lo →
  Axis.assign this a h
  = Done (Axis.Make (Ptr (fresh (dom h))) (length ticks))
         (delete lo (<[fresh (dom h) := Some <$> ticks]> h)).
Proof.
  intros (lo' & Hno & Hlo & Hleno) Ha Hn. rewrite Hno in Hn. injection Hn as ->.
  assert (lo ≠ fresh (dom h)) as Hlo' by by eapply fresh_ne.
  unfold Axis.assign.
  rewrite (bind_done _ _ _ _ _ (copy_done h a ticks Ha)).
  unfold Axis.assign_from, Axis.destroy. cbn [Axis.n Axis.length].
  unfold Mem.bind, delete_array. rewrite Hno.
  by rewrite lookup_insert_ne, Hlo by done.
Qed.

(** X3. Assignment replaces the array of the target: the assigned axis has the
    ticks of the source in a new array, the array the target had is
    released (a read through the pointer that [ticks()] returned before the
    assignment is undefined), every other array is as it was, and as many
    arrays are live as before. *)
Theorem assign_replaces_array h this old a ticks :
  holds h this old → holds h a ticks →
  ∃ b h' lo,
    Axis.assign this a h = Done b h' ∧
    holds h' b ticks ∧
    Axis.n this = Ptr lo ∧ h' !! lo = None ∧
    (∀ i, load (Axis.ticks this) i h' = Undefined) ∧
    (∀ l, Ptr l ≠ Axis.n this → Ptr l ≠ Axis.n b → h' !! l = h !! l) ∧
    size h' = size h.
Proof.
  intros Hthis Ha. pose proof Hthis as (lo & Hno & Hlo & Hleno).
  assert (lo ≠ fresh (dom h)) as Hlo' by by eapply fresh_ne.
  eexists _, _, lo. split; [by eapply assign_done|]. split_and!.
  - eexists. split_and!; [done| |done].
    by rewrite lookup_delete_ne, lookup_insert_eq.
  - done.
  - apply lookup_delete_eq.
  - intros i. unfold Axis.ticks, load. by rewrite Hno, lookup_delete_eq.
  - intros l Hl1 Hl2. rewrite Hno in Hl1. cbn [Axis.n] in Hl2.
    rewrite lookup_delete_ne by congruence.
    by rewrite lookup_insert_ne by congruence.
  - rewrite map_size_delete_Some
      by (rewrite lookup_insert_ne by done; by eexists).
    rewrite map_size_insert_None by apply fresh_unused. lia.
Qed.

(** X4. Self-assignment [a = a] is safe: the parameter is a copy made before
    anything is released, and the axis has its ticks afterwards, in the
    array of the copy. *)
Theorem self_assignment h a ticks :
  holds h a ticks →
  ∃ b h',
    Axis.assign a a h = Done b h' ∧
    holds h' b ticks ∧ Axis.size b = Axis.size a ∧
    ∀ i, tick_at h' b i = tick_at h a i.
Proof.
  intros Ha. pose proof Ha as (l & Hn & Hl & Hlen).
  assert (l ≠ fresh (dom h)) as Hne by by eapply fresh_ne.
  assert (holds (delete l (<[fresh (dom h) := Some <$> ticks]> h))
            (Axis.Make (Ptr (fresh (dom h))) (length ticks)) ticks) as Hb.
  { eexists. split_and!; [done| |done].
    by rewrite lookup_delete_ne, lookup_insert_eq. }
  eexists _, _. split; [by eapply assign_done|]. split_and!.
  - done.
  - by unfold Axis.size.
  - intros i. by rewrite (tick_at_holds _ _ _ _ Hb), (tick_at_holds _ _ _ _ Ha).
Qed.

(** X5. Move assignment [this = std::move(a)], for two axes with arrays of
    their own: the assigned axis takes over the array of [a], nothing is
    allocated or copied, the array the target had is released, and [a] is
    left with the null pointer. *)
Theorem move_assignment h this old a ticks :
  holds h this old → holds h a ticks → Axis.n this ≠ Axis.n a →
  ∃ b a' lo,
    Axis.n this = Ptr lo ∧
    Axis.assign_move this a h = Done (b, a') (delete lo h) ∧
    Axis.n b = Axis.n a ∧ holds (delete lo h) b ticks ∧
    Axis.n a' = NULL ∧
    Axis.destroy a' (delete lo h) = Done tt (delete lo h).
Proof.
  intros (lo & Hno & Hlo & Hleno) (la & Hna & Hla & Hlena) Hne.
  exists (Axis.Make (Axis.n a) (Axis.length a)), (Axis.Make NULL (Axis.length a)), lo.
  split_and!; try done.
  - unfold Axis.assign_move, Axis.move, Axis.assign_from, Axis.destroy.
    unfold Mem.bind, ret, delete_array. cbn [fst snd Axis.n Axis.length].
    by rewrite Hno, Hlo.
  - exists la. split_and!; [done| |done].
    rewrite lookup_delete_ne; [done|]. intros ->. congruence.
Qed.

(** X6. A write through [operator()] is what a read at that index returns
    afterwards, and the other ticks and the size of the axis are as they
    were. *)
Theorem write_then_read h a ticks i x :
  holds h a ticks → i < Axis.size a →
  ∃ h',
    Axis.set a i x h = Done tt h' ∧
    Axis.get a i h' = Done x h' ∧
    (∀ j, j ≠ i → tick_at h' a j = tick_at h a j) ∧
    holds h' a (<[i := x]> ticks) ∧ length (<[i := x]> ticks) = Axis.size a.
Proof.
  intros Ha Hi. pose proof Ha as (l & Hn & Hl & Hlen).
  unfold Axis.size in *. rewrite Hlen in Hi.
  destruct (set_done h a ticks i x Ha Hi) as (l' & Hn' & Hset).
  rewrite Hn in Hn'. injection Hn' as <-.
  assert (holds (<[l := Some <$> <[i := x]> ticks]> h) a (<[i := x]> ticks)) as Ha'.
  { exists l. split_and!; [done|apply lookup_insert_eq|].
    by rewrite length_insert. }
  eexists. split_and!; [done| | |done|].
  - unfold Axis.get. rewrite Hn.
    eapply load_done; [apply lookup_insert_eq|].
    by rewrite list_lookup_fmap, list_lookup_insert_eq.
  - intros j Hj.
    rewrite (tick_at_holds _ _ _ _ Ha), (tick_at_holds _ _ _ _ Ha').
    by rewrite list_lookup_insert_ne.
  - by rewrite length_insert.
Qed.

End Ownership.

(** ** More on refine and on printing *)

Section RefineMore.
Context `{RealOps Real}.
Implicit Types (h : heap Real) (l : loc) (ticks : list Real).

Lemma refined_cons x rest : ∃ tail, refined x rest = x :: tail.
Proof. destruct rest; by eexists. Qed.

Lemma refined_last x rest : last (refined x rest) = last (x :: rest).
Proof.
  revert x. induction rest as [|y rest IH]; intros x; [done|].
  change (refined x (y :: rest)) with (x :: midpoint x y :: refined y rest).
  specialize (IH y). destruct (refined_cons y rest) as [tail Htail].
  rewrite Htail in IH |- *. exact IH.
Qed.

(** X7. An axis of no ticks (the vector constructor and the release build make
    one from an empty sequence) cannot be refined: the count
    [length * 2 - 1] of the new array is below zero, or wraps, and [new]
    throws before anything is read or written. *)
Theorem refine_empty h a :
  Axis.size a = 0 → Axis.refine a h = BadAlloc.
Proof.
  unfold Axis.size. intros Hlen.
  unfold Axis.refine, Axis.with_length, Mem.bind, new_array. by rewrite Hlen.
Qed.

(** X8. [refine] keeps the end points of the interval: the first tick of the
    refined axis is the first tick of the axis, and its last tick, at index
    [size() - 1], is the last tick of the axis. *)
Theorem refine_end_points h a ticks :
  holds h a ticks → 1 ≤ length ticks →
  ∃ r h',
    Axis.refine a h = Done r h' ∧
    tick_at h' r 0 = head ticks ∧
    tick_at h' r (Axis.size r - 1) = last ticks.
Proof.
  intros Ha Hn. destruct ticks as [|x0 rest]; [simpl in Hn; lia|].
  eexists _, _. split; [by apply refine_done|].
  pose proof (holds_new h (fresh (dom h)) (refined x0 rest)) as Hr.
  rewrite refined_length in Hr.
  replace (2 * length rest + 1) with (2 * length (x0 :: rest) - 1) in Hr
    by (simpl; lia).
  rewrite !(tick_at_holds _ _ _ _ Hr). split.
  - by destruct rest.
  - rewrite <- refined_last, last_lookup, refined_length.
    unfold Axis.size. cbn [Axis.length]. f_equal. simpl. lia.
Qed.

(** X9. [refine] allocates one array, for its result, and releases none; every
    array that was live before, of the receiver or of any other axis, has
    the cells it had. *)
Theorem refine_allocates_one h a ticks :
  holds h a ticks → 1 ≤ length ticks →
  ∃ r h' l',
    Axis.refine a h = Done r h' ∧
    Axis.n r = Ptr l' ∧ h !! l' = None ∧
    dom h' = {[l']} ∪ dom h ∧
    (∀ l, l ≠ l' → h' !! l = h !! l) ∧
    ∀ c cticks, holds h c cticks → holds h' c cticks.
Proof.
  intros Ha Hn. destruct ticks as [|x0 rest]; [simpl in Hn; lia|].
  eexists _, _, (fresh (dom h)). split; [by apply refine_done|]. split_and!.
  - done.
  - apply fresh_unused.
  - apply dom_insert_L.
  - intros l Hl. by rewrite lookup_insert_ne.
  - intros c cticks Hc. apply holds_insert_ne; [done|by eapply holds_fresh].
Qed.

(** X10. Refining twice: an axis of n >= 1 ticks becomes one of 4n-3 ticks in
    which the tick of input position k is at position 4k, the midpoint of
    ticks k and k+1 is at position 4k+2, and the positions 4k+1 and 4k+3
    hold the midpoints of their two neighbours. *)
Theorem refine_twice h a ticks :
  holds h a ticks → 1 ≤ length ticks →
  ∃ r1 h1 r2 h2 ticks2,
    Axis.refine a h = Done r1 h1 ∧ Axis.refine r1 h1 = Done r2 h2 ∧
    holds h2 r2 ticks2 ∧
    Axis.size r2 = 4 * length ticks - 3 ∧
    (∀ k x, ticks !! k = Some x → ticks2 !! (4 * k) = Some x) ∧
    (∀ k x y, ticks !! k = Some x → ticks !! (k + 1) = Some y →
       ticks2 !! (4 * k + 2) = Some (midpoint x y) ∧
       ticks2 !! (4 * k + 1) = Some (midpoint x (midpoint x y)) ∧
       ticks2 !! (4 * k + 3) = Some (midpoint (midpoint x y) y)).
Proof.
  intros Ha Hn. destruct ticks as [|x0 rest]; [simpl in Hn; lia|].
  set (ticks := x0 :: rest) in *.
  destruct (refined_cons x0 rest) as [tail Htail].
  pose proof (holds_new h (fresh (dom h)) (refined x0 rest)) as Hr1.
  rewrite refined_length in Hr1.
  replace (2 * length rest + 1) with (2 * length ticks - 1) in Hr1
    by (simpl; lia).
  set (h1 := <[fresh (dom h) := Some <$> refined x0 rest]> h) in *.
  assert (length tail = 2 * length rest) as Hlen_tail.
  { apply (f_equal length) in Htail. rewrite refined_length in Htail.
    simpl in Htail. lia. }
  eexists _, h1, _, _, (refined x0 tail). split; [by apply refine_done|].
  rewrite Htail in Hr1. split; [by apply refine_done|].
  assert (∀ k, refined x0 tail !! (2 * (2 * k)) = ticks !! k) as Heven.
  { intros k. by rewrite refined_even, <- Htail, refined_even. }
  assert (∀ k x y, ticks !! k = Some x → ticks !! (k + 1) = Some y →
            (x0 :: tail) !! (2 * k + 1) = Some (midpoint x y)) as Hodd.
  { intros k x y Hx Hy. rewrite <- Htail. by apply refined_odd. }
  split_and!.
  - eexists. split_and!; [done|apply lookup_insert_eq|].
    cbn [Axis.length]. rewrite refined_length. simpl. lia.
  - unfold Axis.size. cbn [Axis.length length]. simpl length. lia.
  - intros k x Hk. replace (4 * k) with (2 * (2 * k)) by lia.
    by rewrite Heven.
  - intros k x y Hx Hy. split_and!.
    + replace (4 * k + 2) with (2 * (2 * k + 1)) by lia.
      rewrite refined_even. by eapply Hodd.
    + replace (4 * k + 1) with (2 * (2 * k) + 1) by lia.
      apply refined_odd; [by rewrite <- Htail, refined_even|by eapply Hodd].
    + replace (4 * k + 3) with (2 * (2 * k + 1) + 1) by lia.
      apply refined_odd; [by eapply Hodd|].
      replace (2 * k + 1 + 1) with (2 * (k + 1)) by lia.
      by rewrite <- Htail, refined_even.
Qed.

(** X11. The stream insertion operator reads [axis(0)] before it looks at the
    size: for an axis of no ticks that read is outside the array, and the
    behaviour is undefined. *)
Theorem print_empty h a os :
  holds h a [] → print os a h = Undefined.
Proof.
  intros (l & Hn & Hl & Hlen).
  unfold print, Mem.bind, Axis.get, load. by rewrite Hn, Hl.
Qed.

End RefineMore.

(** ** More on the options of the Bermudan put *)

Section OptionsMore.
Context `{RealOps Real}.
Variable atoi : string → Z.
Variable atof : string → Real.

Local Abbreviation option_switch := (Main.option_switch atoi atof).
Local Abbreviation options_loop := (Main.options_loop atoi atof).
Local Abbreviation main := (Main.main atoi atof).

(** What a pass that ends at the [break] leaves in each variable: the
    converted [optarg] in the variable of the option, the others as they
    were. *)
Lemma option_switch_fields c optarg p out p' :
  option_switch c optarg p = (out, Main.Break p') →
  Main.K p' = (if Ascii.eqb c "K" then atof optarg else Main.K p) ∧
  Main.T p' = (if Ascii.eqb c "T" then atof optarg else Main.T p) ∧
  Main.r p' = (if Ascii.eqb c "r" then atof optarg else Main.r p) ∧
  Main.v p' = (if Ascii.eqb c "v" then atof optarg else Main.v p) ∧
  Main.q p' = (if Ascii.eqb c "d" then atof optarg else Main.q p) ∧
  Main.R p' = (if Ascii.eqb c "R" then atoi optarg else Main.R p) ∧
  Main.e p' = (if Ascii.eqb c "e" then atoi optarg else Main.e p) ∧
  Main.N p' = (if Ascii.eqb c "N" then atoi optarg else Main.N p).
Proof.
  unfold Main.option_switch.
  destruct c as [[] [] [] [] [] [] [] []]; cbn [Ascii.eqb Bool.eqb];
    repeat match goal with
      | |- context [if ?b then _ else _] => destruct b eqn:?
      end;
    intros [= <- <-]; cbn; split_and!; reflexivity.
Qed.

Lemma option_switch_Return c optarg p out status :
  option_switch c optarg p = (out, Main.Return status) →
  let err := Main.getopt_wrote c optarg ++ out in
  (status = 0%Z ∧ err = Main.help ∧ c = "h"%char) ∨
  (status = 1%Z ∧ err ∈ error_messages) ∨
  (status = 1%Z ∧ err = Text optarg :: Endl :: Main.help ∧ c = "?"%char) ∨
  (status = 1%Z ∧ err = Endl :: Main.help ∧ c = ":"%char).
Proof.
  unfold Main.option_switch, Main.getopt_wrote.
  destruct c as [[] [] [] [] [] [] [] []];
    repeat match goal with
      | |- context [if ?b then _ else _] => destruct b eqn:?
      end;
    intros [= <- <-]; cbn [app];
    first [ by left
          | by right; right; left
          | by right; right; right
          | right; left; split; [done|];
            unfold error_messages;
            repeat first [ apply list_elem_of_here | apply list_elem_of_further ] ].
Qed.

Lemma last_arg_step {A} (f : string → A) c c' optarg rest (d d1 x : A) :
  d1 = (if Ascii.eqb c' c then f optarg else d) →
  x = default d1 (f <$> last_arg c rest) →
  x = default d (f <$> last_arg c ((c', optarg) :: rest)).
Proof.
  intros -> ->. cbn [last_arg]. destruct (last_arg c rest); [done|].
  by destruct (Ascii.eqb c' c).
Qed.

Lemma options_loop_fields opts p0 cerr cerr' p :
  options_loop opts p0 cerr = (cerr', Main.Break p) →
  Main.K p = default (Main.K p0) (atof <$> last_arg "K" opts) ∧
  Main.T p = default (Main.T p0) (atof <$> last_arg "T" opts) ∧
  Main.r p = default (Main.r p0) (atof <$> last_arg "r" opts) ∧
  Main.v p = default (Main.v p0) (atof <$> last_arg "v" opts) ∧
  Main.q p = default (Main.q p0) (atof <$> last_arg "d" opts) ∧
  Main.R p = default (Main.R p0) (atoi <$> last_arg "R" opts) ∧
  Main.e p = default (Main.e p0) (atoi <$> last_arg "e" opts) ∧
  Main.N p = default (Main.N p0) (atoi <$> last_arg "N" opts).
Proof.
  revert p0 cerr. induction opts as [|[c optarg] opts IH]; intros p0 cerr.
  - cbn. intros [= <- <-]. by split_and!.
  - cbn [Main.options_loop].
    destruct (option_switch c optarg p0) as [out [p1|status]] eqn:Hsw; [|done].
    intros Hloop.
    apply option_switch_fields in Hsw as (?&?&?&?&?&?&?&?).
    apply IH in Hloop as (?&?&?&?&?&?&?&?).
    split_and!; eapply last_arg_step; eassumption.
Qed.

(** X13. The options are applied from left to right, so the last one of a kind
    wins: when the program goes on to the computation, each variable has
    the converted argument of the last option that sets it, or its initial
    value if there is none. *)
Theorem last_option_wins opts cerr p events :
  main opts = Main.Solved cerr p events →
  Main.K p = default (Rdec 100 0) (atof <$> last_arg "K" opts) ∧
  Main.T p = default (Rdec 1 0) (atof <$> last_arg "T" opts) ∧
  Main.r p = default (Rdec 4 (-2)) (atof <$> last_arg "r" opts) ∧
  Main.v p = default (Rdec 2 (-1)) (atof <$> last_arg "v" opts) ∧
  Main.q p = default (Rdec 0 0) (atof <$> last_arg "d" opts) ∧
  Main.R p = default 0%Z (atoi <$> last_arg "R" opts) ∧
  Main.e p = default 10%Z (atoi <$> last_arg "e" opts) ∧
  Main.N p = default 25%Z (atoi <$> last_arg "N" opts).
Proof.
  unfold Main.main.
  destruct (options_loop opts Main.defaults []) as [cerr' [p'|status]] eqn:Hloop;
    [|done].
  intros [= <- <- <-]. by apply options_loop_fields in Hloop.
Qed.

(** X14. The program goes on to the computation exactly when every option
    passes, and then it has written nothing to [cerr]. *)
Theorem computes_iff_all_pass opts :
  (forallb (passes atoi atof) opts = true
   ↔ ∃ p, main opts = Main.Solved [] p (Main.exercise_events p)) ∧
  ∀ cerr p events,
    main opts = Main.Solved cerr p events →
    cerr = [] ∧ events = Main.exercise_events p.
Proof.
  split.
  - split.
    + intros Hpass.
      destruct (options_loop_passes atoi atof opts [] Main.defaults [] Hpass)
        as [p Hp].
      rewrite app_nil_r in Hp. exists p. unfold Main.main. by rewrite Hp.
    + intros [p Hp]. by apply main_Solved in Hp as (_ & ? & _).
  - intros cerr p events Hp. by apply main_Solved in Hp as (? & _ & _ & ?).
Qed.

Lemma options_loop_Return opts p status cerr :
  options_loop opts p [] = (cerr, Main.Return status) →
  (status = 0%Z ∧ cerr = Main.help ∧ ∃ s, ("h"%char, s) ∈ opts) ∨
  (status = 1%Z ∧ cerr ∈ error_messages) ∨
  (status = 1%Z ∧ ∃ diagnostic,
     ("?"%char, diagnostic) ∈ opts ∧ cerr = Text diagnostic :: Endl :: Main.help) ∨
  (status = 1%Z ∧ cerr = Endl :: Main.help ∧ ∃ s, (":"%char, s) ∈ opts).
Proof.
  revert p. induction opts as [|[c optarg] opts IH]; intros p; [done|].
  cbn [Main.options_loop app].
  destruct (option_switch c optarg p) as [out [p1|status']] eqn:Hsw.
  - apply option_switch_Break in Hsw as (-> & Hc & _).
    rewrite (passes_getopt_quiet _ _ _ _ Hc). cbn [app]. intros Hloop.
    apply IH in Hloop
      as [(? & ? & s & Hs)|[?|[(? & d & Hd & ?)|(? & ? & s & Hs)]]].
    + left. split_and!; [done..|]. exists s. by apply list_elem_of_further.
    + by right; left.
    + right; right; left. split; [done|]. exists d.
      split; [by apply list_elem_of_further|done].
    + right; right; right. split_and!; [done..|]. exists s.
      by apply list_elem_of_further.
  - intros [= <- <-].
    apply option_switch_Return in Hsw
      as [(? & ? & ->)|[?|[(? & ? & ->)|(? & ? & ->)]]].
    + left. split_and!; [done..|]. exists optarg. apply list_elem_of_here.
    + by right; left.
    + right; right; left. split; [done|]. exists optarg.
      split; [apply list_elem_of_here|done].
    + right; right; right. split_and!; [done..|]. exists optarg.
      apply list_elem_of_here.
Qed.

Lemma forallb_elem_of {A} (f : A → bool) (l : list A) x :
  forallb f l = true → x ∈ l → f x = true.
Proof.
  induction l as [|y l IH]; [by intros _ ?%elem_of_nil|].
  cbn [forallb]. intros [Hy Hl]%andb_true_iff [->|Hx]%elem_of_cons; auto.
Qed.

(** X15. When [main] returns from the options loop, the exit status is 0
    or 1.  It is 0 only for [-h], and the standard error then holds the
    usage text and nothing else.  With status 1 the standard error holds
    one of the four error messages and nothing else, or, for an option
    that [getopt] rejected, the diagnostic of [getopt], an empty line and
    the usage text.  The program never fails without a message. *)
Theorem exit_status_and_message opts status cerr :
  forallb getopt_returns opts = true →
  main opts = Main.Exited status cerr →
  (status = 0%Z ∧ cerr = Main.help ∧ ∃ s, ("h"%char, s) ∈ opts) ∨
  (status = 1%Z ∧ cerr ≠ [] ∧
   (cerr ∈ error_messages ∨
    ∃ diagnostic, ("?"%char, diagnostic) ∈ opts ∧
                  cerr = Text diagnostic :: Endl :: Main.help)).
Proof.
  intros Hrange. unfold Main.main.
  destruct (options_loop opts Main.defaults []) as [cerr' [p'|status']] eqn:Hloop;
    [done|].
  intros [= <- <-].
  apply options_loop_Return in Hloop
    as [?|[[? Hin]|[(? & d & Hd & ->)|(_ & _ & s & Hs)]]].
  - by left.
  - right. split_and!; [done| |by left].
    intros ->. unfold error_messages in Hin.
    apply list_elem_of_In in Hin. cbn [In] in Hin.
    repeat (destruct Hin as [Hin|Hin]; [discriminate Hin|]). exact Hin.
  - right. split_and!; [done..|]. right. by exists d.
  - by apply (forallb_elem_of _ _ _ Hrange) in Hs.
Qed.

(** X16. An option that [getopt] rejects (it returns ['?'] for an unknown
    option or a missing argument, after it wrote a diagnostic), after
    options that all pass, ends the program with exit status 1; the
    standard error holds the diagnostic of [getopt], then the empty line
    and the usage text that [main] writes, whatever options follow. *)
Theorem rejected_option_usage pre diagnostic rest :
  forallb (passes atoi atof) pre = true →
  main (pre ++ ("?"%char, diagnostic) :: rest)
  = Main.Exited 1 (Text diagnostic :: Endl :: Main.help).
Proof.
  intros Hpre. unfold Main.main.
  destruct (options_loop_passes atoi atof pre (("?"%char, diagnostic) :: rest)
              Main.defaults [] Hpre) as [p ->].
  reflexivity.
Qed.

End OptionsMore.

(** ** Debug and release builds *)

Section Builds.
Context `{RealOps Real}.

(** X12. The assertions change nothing but whether the constructor returns: an
    axis that the debug build constructs is the axis, in the heap, that
    the release build constructs from the same list. *)
Theorem debug_release_agree (h h' : heap Real) (list : list Real) a :
  Axis.from_list Debug list h = Done a h' →
  Axis.from_list Release list h = Done a h' ∧
  list ≠ [] ∧ strictly_increasing list.
Proof.
  rewrite from_list_debug, from_list_release.
  destruct (0 <? length list) eqn:Hpos; [|done].
  destruct (increasing list) eqn:Hinc; [|done]. cbn [andb].
  intros [= <- <-]. split_and!; [done| |by apply increasing_spec].
  intros ->. cbn in Hpos. done.
Qed.

End Builds.

(** ** The further properties in double precision *)

Section Binary64More.

Lemma two_heap_grid : holds two_heap grid_axis Main.grid_ticks.
Proof. exists 1%positive. split_and!; reflexivity. Qed.

Lemma two_heap_adjacent : holds two_heap adjacent_axis adjacent_ticks.
Proof. exists 2%positive. split_and!; reflexivity. Qed.

Lemma empty_axis_holds : holds empty_heap empty_axis [].
Proof. exists 1%positive. split_and!; reflexivity. Qed.

Lemma move_hands_over_witness :
  holds grid_heap grid_axis Main.grid_ticks ∧
  ∃ b a' l,
    Axis.move grid_axis grid_heap = Done (b, a') grid_heap ∧
    holds grid_heap b Main.grid_ticks ∧ Axis.n b = Axis.n grid_axis ∧
    Axis.n grid_axis = Ptr l ∧
    Axis.n a' = NULL ∧
    Axis.destroy a' grid_heap = Done tt grid_heap ∧
    Axis.destroy b grid_heap = Done tt (delete l grid_heap) ∧
    Axis.destroy a' (delete l grid_heap) = Done tt (delete l grid_heap).
Proof.
  split; [exact grid_axis_holds|].
  exact (move_hands_over grid_heap grid_axis Main.grid_ticks grid_axis_holds).
Defined.

Lemma construct_then_destroy_witness :
  (b ←' Axis.from_vector adjacent_ticks; Axis.destroy b) grid_heap
  = Done tt grid_heap ∧
  (b ←' Axis.from_list Release adjacent_ticks; Axis.destroy b) grid_heap
  = Done tt grid_heap ∧
  ((b ←' Axis.from_list Debug adjacent_ticks; Axis.destroy b) grid_heap
   = Done tt grid_heap ∨
   (b ←' Axis.from_list Debug adjacent_ticks; Axis.destroy b) grid_heap
   = AssertFailed) ∧
  holds grid_heap grid_axis Main.grid_ticks ∧
  (b ←' Axis.copy grid_axis; Axis.destroy b) grid_heap = Done tt grid_heap ∧
  (b ←' Axis.refine grid_axis; Axis.destroy b) grid_heap = Done tt grid_heap.
Proof.
  assert (1 ≤ length (@Main.grid_ticks float _)) as Hn by (vm_compute; lia).
  destruct (construct_then_destroy grid_heap adjacent_ticks)
    as (Hv & Hr & Hd & Hall).
  destruct (Hall grid_axis Main.grid_ticks grid_axis_holds) as [Hc Hf].
  split; [exact Hv|]. split; [exact Hr|]. split; [exact Hd|].
  split; [exact grid_axis_holds|]. split; [exact Hc|]. exact (Hf Hn).
Defined.

Lemma assign_replaces_array_witness :
  holds two_heap adjacent_axis adjacent_ticks ∧
  holds two_heap grid_axis Main.grid_ticks ∧
  ∃ b h' lo,
    Axis.assign adjacent_axis grid_axis two_heap = Done b h' ∧
    holds h' b Main.grid_ticks ∧
    Axis.n adjacent_axis = Ptr lo ∧ h' !! lo = None ∧
    (∀ i, load (Axis.ticks adjacent_axis) i h' = Undefined) ∧
    (∀ l, Ptr l ≠ Axis.n adjacent_axis → Ptr l ≠ Axis.n b →
          h' !! l = two_heap !! l) ∧
    size h' = size two_heap.
Proof.
  split; [exact two_heap_adjacent|]. split; [exact two_heap_grid|].
  exact (assign_replaces_array two_heap adjacent_axis adjacent_ticks grid_axis
           Main.grid_ticks two_heap_adjacent two_heap_grid).
Defined.

Lemma self_assignment_witness :
  holds grid_heap grid_axis Main.grid_ticks ∧
  ∃ b h',
    Axis.assign grid_axis grid_axis grid_heap = Done b h' ∧
    holds h' b Main.grid_ticks ∧ Axis.size b = Axis.size grid_axis ∧
    ∀ i, tick_at h' b i = tick_at grid_heap grid_axis i.
Proof.
  split; [exact grid_axis_holds|].
  exact (self_assignment grid_heap grid_axis Main.grid_ticks grid_axis_holds).
Defined.

Lemma move_assignment_witness :
  holds two_heap adjacent_axis adjacent_ticks ∧
  holds two_heap grid_axis Main.grid_ticks ∧
  Axis.n adjacent_axis ≠ Axis.n grid_axis ∧
  ∃ b a' lo,
    Axis.n adjacent_axis = Ptr lo ∧
    Axis.assign_move adjacent_axis grid_axis two_heap
    = Done (b, a') (delete lo two_heap) ∧
    Axis.n b = Axis.n grid_axis ∧ holds (delete lo two_heap) b Main.grid_ticks ∧
    Axis.n a' = NULL ∧
    Axis.destroy a' (delete lo two_heap) = Done tt (delete lo two_heap).
Proof.
  assert (Axis.n adjacent_axis ≠ Axis.n grid_axis) as Hne by discriminate.
  split; [exact two_heap_adjacent|]. split; [exact two_heap_grid|].
  split; [exact Hne|].
  exact (move_assignment two_heap adjacent_axis adjacent_ticks grid_axis
           Main.grid_ticks two_heap_adjacent two_heap_grid Hne).
Defined.

Lemma write_then_read_witness :
  holds grid_heap grid_axis Main.grid_ticks ∧ 16 < Axis.size grid_axis ∧
  ∃ h',
    Axis.set grid_axis 16 101%float grid_heap = Done tt h' ∧
    Axis.get grid_axis 16 h' = Done 101%float h' ∧
    (∀ j, j ≠ 16 → tick_at h' grid_axis j = tick_at grid_heap grid_axis j) ∧
    holds h' grid_axis (<[16 := 101%float]> Main.grid_ticks) ∧
    length (<[16 := 101%float]> (@Main.grid_ticks float _)) = Axis.size grid_axis.
Proof.
  assert (16 < Axis.size grid_axis) as Hi by (vm_compute; lia).
  split; [exact grid_axis_holds|]. split; [exact Hi|].
  exact (write_then_read grid_heap grid_axis Main.grid_ticks 16 101%float
           grid_axis_holds Hi).
Defined.

Lemma refine_empty_witness :
  Axis.from_vector [] ∅ = Done empty_axis empty_heap ∧
  Axis.size empty_axis = 0 ∧
  Axis.refine empty_axis empty_heap = BadAlloc.
Proof.
  split; [vm_compute; reflexivity|]. split; [reflexivity|].
  exact (refine_empty empty_heap empty_axis eq_refl).
Defined.

Lemma print_empty_witness :
  holds empty_heap empty_axis [] ∧
  print [] empty_axis empty_heap = Undefined.
Proof.
  split; [exact empty_axis_holds|].
  exact (print_empty empty_heap empty_axis [] empty_axis_holds).
Defined.

Lemma refine_end_points_witness :
  holds grid_heap grid_axis Main.grid_ticks ∧
  1 ≤ length (@Main.grid_ticks float _) ∧
  ∃ r h',
    Axis.refine grid_axis grid_heap = Done r h' ∧
    tick_at h' r 0 = head Main.grid_ticks ∧
    tick_at h' r (Axis.size r - 1) = last Main.grid_ticks.
Proof.
  assert (1 ≤ length (@Main.grid_ticks float _)) as Hn by (vm_compute; lia).
  split; [exact grid_axis_holds|]. split; [exact Hn|].
  exact (refine_end_points grid_heap grid_axis Main.grid_ticks
           grid_axis_holds Hn).
Defined.

Lemma refine_allocates_one_witness :
  holds two_heap grid_axis Main.grid_ticks ∧
  1 ≤ length (@Main.grid_ticks float _) ∧
  ∃ r h' l',
    Axis.refine grid_axis two_heap = Done r h' ∧
    Axis.n r = Ptr l' ∧ two_heap !! l' = None ∧
    dom h' = {[l']} ∪ dom two_heap ∧
    (∀ l, l ≠ l' → h' !! l = two_heap !! l) ∧
    ∀ c cticks, holds two_heap c cticks → holds h' c cticks.
Proof.
  assert (1 ≤ length (@Main.grid_ticks float _)) as Hn by (vm_compute; lia).
  split; [exact two_heap_grid|]. split; [exact Hn|].
  exact (refine_allocates_one two_heap grid_axis Main.grid_ticks
           two_heap_grid Hn).
Defined.

Lemma refine_twice_witness :
  holds grid_heap grid_axis Main.grid_ticks ∧
  1 ≤ length (@Main.grid_ticks float _) ∧
  ∃ r1 h1 r2 h2 ticks2,
    Axis.refine grid_axis grid_heap = Done r1 h1 ∧
    Axis.refine r1 h1 = Done r2 h2 ∧
    holds h2 r2 ticks2 ∧
    Axis.size r2 = 4 * length (@Main.grid_ticks float _) - 3 ∧
    (∀ k x, Main.grid_ticks !! k = Some x → ticks2 !! (4 * k) = Some x) ∧
    (∀ k x y, Main.grid_ticks !! k = Some x → Main.grid_ticks !! (k + 1) = Some y →
       ticks2 !! (4 * k + 2) = Some (midpoint x y) ∧
       ticks2 !! (4 * k + 1) = Some (midpoint x (midpoint x y)) ∧
       ticks2 !! (4 * k + 3) = Some (midpoint (midpoint x y) y)).
Proof.
  assert (1 ≤ length (@Main.grid_ticks float _)) as Hn by (vm_compute; lia).
  split; [exact grid_axis_holds|]. split; [exact Hn|].
  exact (refine_twice grid_heap grid_axis Main.grid_ticks grid_axis_holds Hn).
Defined.

Lemma debug_release_agree_witness :
  Axis.from_list Debug Main.grid_ticks ∅ = Done grid_axis grid_heap ∧
  Axis.from_list Release Main.grid_ticks ∅ = Done grid_axis grid_heap ∧
  @Main.grid_ticks float _ ≠ [] ∧ strictly_increasing (@Main.grid_ticks float _).
Proof.
  assert (Axis.from_list Debug Main.grid_ticks ∅ = Done grid_axis grid_heap)
    as Hd by (vm_compute; reflexivity).
  split; [exact Hd|].
  exact (debug_release_agree ∅ grid_heap Main.grid_ticks grid_axis Hd).
Defined.

Lemma last_option_wins_witness :
  let opts := [("e"%char, "3"); ("T"%char, "2"); ("e"%char, "7")] in
  ∃ cerr p events,
    Main.main Libc.atoi Libc.atof opts = Main.Solved cerr p events ∧
    Main.K p = default (Rdec 100 0) (Libc.atof <$> last_arg "K" opts) ∧
    Main.T p = default (Rdec 1 0) (Libc.atof <$> last_arg "T" opts) ∧
    Main.r p = default (Rdec 4 (-2)) (Libc.atof <$> last_arg "r" opts) ∧
    Main.v p = default (Rdec 2 (-1)) (Libc.atof <$> last_arg "v" opts) ∧
    Main.q p = default (Rdec 0 0) (Libc.atof <$> last_arg "d" opts) ∧
    Main.R p = default 0%Z (Libc.atoi <$> last_arg "R" opts) ∧
    Main.e p = default 10%Z (Libc.atoi <$> last_arg "e" opts) ∧
    Main.N p = default 25%Z (Libc.atoi <$> last_arg "N" opts).
Proof.
  intros opts.
  assert (∃ cerr p events,
            Main.main Libc.atoi Libc.atof opts = Main.Solved cerr p events)
    as (cerr & p & events & Hmain).
  { eexists _, _, _. vm_compute. reflexivity. }
  exists cerr, p, events. split; [exact Hmain|].
  exact (last_option_wins Libc.atoi Libc.atof opts cerr p events Hmain).
Defined.

Lemma exit_status_and_message_witness :
  let opts := [("e"%char, "3"); ("?"%char, "bermudan_put: invalid option -- 'x'");
               ("h"%char, EmptyString)] in
  ∃ status cerr,
    forallb getopt_returns opts = true ∧
    Main.main Libc.atoi Libc.atof opts = Main.Exited status cerr ∧
    ((status = 0%Z ∧ cerr = Main.help ∧ ∃ s, ("h"%char, s) ∈ opts) ∨
     (status = 1%Z ∧ cerr ≠ [] ∧
      (cerr ∈ error_messages ∨
       ∃ diagnostic, ("?"%char, diagnostic) ∈ opts ∧
                     cerr = Text diagnostic :: Endl :: Main.help))).
Proof.
  intros opts.
  assert (forallb getopt_returns opts = true) as Hrange
    by (vm_compute; reflexivity).
  assert (∃ status cerr,
            Main.main Libc.atoi Libc.atof opts = Main.Exited status cerr)
    as (status & cerr & Hmain).
  { eexists _, _. vm_compute. reflexivity. }
  exists status, cerr. split; [exact Hrange|]. split; [exact Hmain|].
  exact (exit_status_and_message Libc.atoi Libc.atof opts status cerr
           Hrange Hmain).
Defined.

Lemma rejected_option_usage_witness :
  let pre := [("N"%char, "50"); ("T"%char, "2.5")] in
  let rest := [("h"%char, EmptyString)] in
  let diagnostic := "bermudan_put: invalid option -- 'x'" in
  forallb (passes Libc.atoi Libc.atof) pre = true ∧
  Main.main Libc.atoi Libc.atof (pre ++ ("?"%char, diagnostic) :: rest)
  = Main.Exited 1 (Text diagnostic :: Endl :: Main.help).
Proof.
  intros pre rest diagnostic.
  assert (forallb (passes Libc.atoi Libc.atof) pre = true) as Hpre
    by (vm_compute; reflexivity).
  split; [exact Hpre|].
  exact (rejected_option_usage Libc.atoi Libc.atof pre diagnostic rest Hpre).
Defined.

End Binary64More.
